(** * cpsat_dbap: a shallow embedding of the data model, the parser, the
    greedy EDF heuristic and the pre-engine part of [solve]. *)

From Stdlib Require Import ZArith Lia.
From stdpp Require Import base list.

Open Scope Z_scope.

(** Python exceptions the modelled code can raise. *)
Inductive py_error :=
| ValueError
| EOFError.

(** Results of fallible code: [inl] is a raised exception. *)
Definition result (A : Type) : Type := (py_error + A)%type.

(* ============================================================ *)
(** ** ProcessingTime (instance.py) *)
(* ============================================================ *)

Record ProcessingTime := PT { time : Z }.

Definition is_valid (p : ProcessingTime) : bool := 0 <=? time p.
Definition is_invalid (p : ProcessingTime) : bool := time p <? 0.

(** [value()] raises [ValueError] on an invalid time. *)
Definition value (p : ProcessingTime) : result Z :=
  if is_valid p then inr (time p) else inl ValueError.

(** Sentinel constant for invalid time. *)
Definition INVALID_PROCESSING_TIME : ProcessingTime := PT (-1).

(** The right operand of the arithmetic dunder methods:
    [Union[ProcessingTime, int]]. *)
Inductive operand :=
| OpPT (p : ProcessingTime)
| OpInt (z : Z).

Definition as_pt (o : operand) : ProcessingTime :=
  match o with OpPT p => p | OpInt z => PT z end.

Definition _combine (self : ProcessingTime) (other : operand)
    (op : Z -> Z -> Z) : ProcessingTime :=
  let other := as_pt other in
  if is_valid self && is_valid other then PT (op (time self) (time other))
  else INVALID_PROCESSING_TIME.

Definition pt_add (a : ProcessingTime) (b : operand) := _combine a b Z.add.
Definition pt_sub (a : ProcessingTime) (b : operand) := _combine a b Z.sub.
Definition pt_mul (a : ProcessingTime) (b : operand) := _combine a b Z.mul.

(** [__floordiv__]: Python's [//] on ints floors, as [Z.div] does. *)
Definition pt_floordiv (self : ProcessingTime) (other : operand) : ProcessingTime :=
  let other := as_pt other in
  if is_valid self && is_valid other && negb (time other =? 0)
  then PT (time self / time other)
  else INVALID_PROCESSING_TIME.

(** [__radd__], [__rsub__], [__rmul__]: [other op self] with [other : int]. *)
Definition pt_radd (self : ProcessingTime) (other : Z) := pt_add self (OpInt other).
Definition pt_rsub (self : ProcessingTime) (other : Z) : ProcessingTime :=
  let other_pt := PT other in
  if is_valid other_pt && is_valid self then PT (other - time self)
  else INVALID_PROCESSING_TIME.
Definition pt_rmul (self : ProcessingTime) (other : Z) := pt_mul self (OpInt other).

(* ============================================================ *)
(** ** HalfOpenInterval (instance.py) *)
(* ============================================================ *)

Record HalfOpenInterval := HOI { start_inclusive : Z; end_exclusive : Z }.

(** The constructor with its [__post_init__] check. *)
Definition mk_interval (s e : Z) : result HalfOpenInterval :=
  if e <? s then inl ValueError else inr (HOI s e).

Definition hoi_start (x : HalfOpenInterval) := start_inclusive x.
Definition hoi_finish (x : HalfOpenInterval) := end_exclusive x.
Definition hoi_len (x : HalfOpenInterval) := end_exclusive x - start_inclusive x.
Definition is_empty (x : HalfOpenInterval) : bool := hoi_len x =? 0.
Definition contains (x : HalfOpenInterval) (t : Z) : bool :=
  (start_inclusive x <=? t) && (t <? end_exclusive x).
Definition overlaps (x other : HalfOpenInterval) : bool :=
  (start_inclusive x <? end_exclusive other) && (start_inclusive other <? end_exclusive x).
Definition adjacent (x other : HalfOpenInterval) : bool :=
  (end_exclusive x =? start_inclusive other) || (end_exclusive other =? start_inclusive x).

(** [intersection] builds its result with the checking constructor. *)
Definition intersection (x other : HalfOpenInterval) : result (option HalfOpenInterval) :=
  if overlaps x other then
    match mk_interval (Z.max (start_inclusive x) (start_inclusive other))
                      (Z.min (end_exclusive x) (end_exclusive other)) with
    | inl e => inl e
    | inr i => inr (Some i)
    end
  else inr None.

(* ============================================================ *)
(** ** DBAPInstance (instance.py) *)
(* ============================================================ *)

Record DBAPInstance := {
  num_vessels : Z;
  num_berths : Z;
  vessel_weights : list Z;
  arrival_times : list Z;
  latest_departure_times : list Z;
  processing_times : list (list ProcessingTime);
  berth_opening_times : list HalfOpenInterval
}.

Definition zlen {A} (l : list A) : Z := Z.of_nat (length l).

(** The dataclass constructor with its [__post_init__]: only the array
    dimensions are validated. *)
Definition mk_instance (n m : Z) (weights arrivals latest : list Z)
    (proc : list (list ProcessingTime)) (windows : list HalfOpenInterval)
    : result DBAPInstance :=
  if negb (zlen weights =? n) then inl ValueError
  else if negb (zlen arrivals =? n) then inl ValueError
  else if negb (zlen latest =? n) then inl ValueError
  else if negb (zlen proc =? n) then inl ValueError
  else if existsb (fun row => negb (zlen row =? m)) proc then inl ValueError
  else if negb (zlen windows =? m) then inl ValueError
  else inr {| num_vessels := n; num_berths := m; vessel_weights := weights;
              arrival_times := arrivals; latest_departure_times := latest;
              processing_times := proc; berth_opening_times := windows |}.

(** Python list indexing [l[i]]; every index the modelled code uses is in
    range on a constructed instance, where the default is never reached. *)
Definition at_ {A} `{Inhabited A} (l : list A) (i : nat) : A := l !!! i.

Global Instance ProcessingTime_inhabited : Inhabited ProcessingTime := populate (PT 0).
Global Instance HalfOpenInterval_inhabited : Inhabited HalfOpenInterval := populate (HOI 0 0).

Definition get_processing_time (inst : DBAPInstance) (v b : nat) : ProcessingTime :=
  at_ (at_ (processing_times inst) v) b.
Definition get_berth_interval (inst : DBAPInstance) (b : nat) : HalfOpenInterval :=
  at_ (berth_opening_times inst) b.

(* ============================================================ *)
(** ** Solution (solution.py) *)
(* ============================================================ *)

Record Solution := {
  vessel_berths : list Z;
  vessel_start_times : list Z;
  vessel_end_times : list Z;
  vessel_turnaround_times : list Z;
  vessel_weighted_turnaround_times : list Z;
  total_turnaround_time : Z;
  total_weighted_turnaround_time : Z
}.

(** The accumulators of the metric loop of [__post_init__]:
    [turnaround], [weighted], [total_ta], [total_wta]. *)
Record metrics := { m_turn : list Z; m_weighted : list Z; m_total_ta : Z; m_total_wta : Z }.

(** One iteration [i] of the metric loop. *)
Definition metric_step (starts ends weights arrivals : list Z) (i : nat)
    (acc : metrics) : result metrics :=
  let start := at_ starts i in
  let end_ := at_ ends i in
  let arrival := at_ arrivals i in
  let w := at_ weights i in
  if end_ <? start then inl ValueError
  else
    let ta := end_ - arrival in
    let wta := ta * w in
    inr {| m_turn := m_turn acc ++ [ta]; m_weighted := m_weighted acc ++ [wta];
           m_total_ta := m_total_ta acc + ta; m_total_wta := m_total_wta acc + wta |}.

(** [for i in range(...)] in the error monad, over an explicit index list. *)
Fixpoint for_each {S} (idx : list nat) (body : nat -> S -> result S) (st : S)
    : result S :=
  match idx with
  | [] => inr st
  | i :: r => match body i st with inl e => inl e | inr st' => for_each r body st' end
  end.

Definition mk_solution (berths starts ends weights arrivals : list Z) : result Solution :=
  let n := length berths in
  if negb (length starts =? n)%nat then inl ValueError
  else if negb (length ends =? n)%nat then inl ValueError
  else if negb (length weights =? n)%nat then inl ValueError
  else if negb (length arrivals =? n)%nat then inl ValueError
  else
    match for_each (seq 0 n) (metric_step starts ends weights arrivals)
            {| m_turn := []; m_weighted := []; m_total_ta := 0; m_total_wta := 0 |} with
    | inl e => inl e
    | inr acc =>
        inr {| vessel_berths := berths; vessel_start_times := starts;
               vessel_end_times := ends;
               vessel_turnaround_times := m_turn acc;
               vessel_weighted_turnaround_times := m_weighted acc;
               total_turnaround_time := m_total_ta acc;
               total_weighted_turnaround_time := m_total_wta acc |}
    end.

(** Python's [max] of a list: raises on an empty list. *)
Definition py_max (l : list Z) : result Z :=
  match l with [] => inl ValueError | x :: r => inr (fold_left Z.max r x) end.

Definition makespan (sol : Solution) : Z :=
  match vessel_end_times sol with
  | [] => 0
  | x :: r => fold_left Z.max r x
  end.

(** The [num_vessels] property of [Solution]. *)
Definition sol_num_vessels (sol : Solution) : nat := length (vessel_berths sol).

(** [validate()]: the length loop, then the timing loop, each raising at
    its first failure. *)
Definition validate (sol : Solution) : result bool :=
  let n := sol_num_vessels sol in
  let arrays := [vessel_start_times sol; vessel_end_times sol;
                 vessel_turnaround_times sol; vessel_weighted_turnaround_times sol] in
  if existsb (fun vec => negb (length vec =? n)%nat) arrays then inl ValueError
  else
    match for_each (seq 0 n)
            (fun i (_ : unit) =>
               if at_ (vessel_end_times sol) i <? at_ (vessel_start_times sol) i
               then inl ValueError else inr tt) tt with
    | inl e => inl e
    | inr _ => inr true
    end.

(* ============================================================ *)
(** ** parse_instance (instance.py) *)
(* ============================================================ *)

(** The token stream: the whitespace-separated words of the source, each
    given by what [int(word)] does on it: [Some z] for an integer word,
    [None] for a word on which [int] raises [ValueError]. *)
Definition token := option Z.

(** The parser threads the token stream and may raise. *)
Definition parser (A : Type) : Type := list token -> result (A * list token).

Definition pret {A} (x : A) : parser A := fun ts => inr (x, ts).
Definition pbind {A B} (p : parser A) (k : A -> parser B) : parser B :=
  fun ts => match p ts with inl e => inl e | inr (x, ts') => k x ts' end.
Definition praise {A} (e : py_error) : parser A := fun _ => inl e.

Notation "'let*' x ':=' p 'in' k" := (pbind p (fun x => k))
  (at level 200, x ident, p at level 100, k at level 200).

(** [read_int()]: [next(tokens)] raises [StopIteration] (turned into
    [EOFError]) at the end of input, [int] raises [ValueError]. *)
Definition read_int : parser Z := fun ts =>
  match ts with
  | [] => inl EOFError
  | Some z :: r => inr (z, r)
  | None :: _ => inl ValueError
  end.

(** [[p() for _ in range(k)]]. *)
Fixpoint repeatP {A} (k : nat) (p : parser A) : parser (list A) :=
  match k with
  | O => pret []
  | S k' => let* x := p in let* xs := repeatP k' p in pret (x :: xs)
  end.

(** The conversion of one processing-time integer [h]. *)
Definition convert_pt (forbidden_threshold h : Z) : ProcessingTime :=
  if forbidden_threshold <=? h then INVALID_PROCESSING_TIME else PT h.

Definition read_pt (forbidden_threshold : Z) : parser ProcessingTime :=
  let* h := read_int in pret (convert_pt forbidden_threshold h).

(** [[f(i) for i in range(k)]] where [f] may raise. *)
Fixpoint map_result {A B} (f : A -> result B) (l : list A) : result (list B) :=
  match l with
  | [] => inr []
  | x :: r => match f x with
              | inl e => inl e
              | inr y => match map_result f r with inl e => inl e | inr ys => inr (y :: ys) end
              end
  end.

Definition lift {A} (r : result A) : parser A :=
  fun ts => match r with inl e => inl e | inr x => inr (x, ts) end.

Definition parse_body (forbidden_threshold : Z) : parser DBAPInstance :=
  let* n := read_int in
  let* m := read_int in
  if n <=? 0 then praise ValueError else
  if m <=? 0 then praise ValueError else
  let* arrivals := repeatP (Z.to_nat n) read_int in
  let* openings := repeatP (Z.to_nat m) read_int in
  let* proc_matrix := repeatP (Z.to_nat n) (repeatP (Z.to_nat m) (read_pt forbidden_threshold)) in
  let* endings := repeatP (Z.to_nat m) read_int in
  if existsb (fun i => at_ endings i <? at_ openings i) (seq 0 (Z.to_nat m))
  then praise ValueError else
  let* latest := repeatP (Z.to_nat n) read_int in
  if existsb (fun i => at_ latest i <? at_ arrivals i) (seq 0 (Z.to_nat n))
  then praise ValueError else
  let* intervals := lift (map_result
      (fun i => mk_interval (at_ openings i) (at_ endings i + 1)) (seq 0 (Z.to_nat m))) in
  let weights := repeat 1 (Z.to_nat n) in
  lift (mk_instance n m weights arrivals latest proc_matrix intervals).

Definition parse_instance (source : list token) (forbidden_threshold : Z)
    : result DBAPInstance :=
  match parse_body forbidden_threshold source with
  | inl e => inl e
  | inr (inst, _) => inr inst
  end.

(** The text format written out as the token stream [parse_instance]
    reads: [N M], arrivals, openings, the processing-time matrix row by
    row, closings, deadlines. *)
Definition serialize (n m : Z) (arrivals openings : list Z) (rows : list (list Z))
    (endings latest : list Z) : list token :=
  map Some ([n; m] ++ arrivals ++ openings ++ concat rows ++ endings ++ latest).

(** A one-vessel, one-berth input. *)
Example parse_small :
  parse_instance (map Some [1; 1; 0; 0; 10; 99; 100]) 99999 =
  inr {| num_vessels := 1; num_berths := 1; vessel_weights := [1];
         arrival_times := [0]; latest_departure_times := [100];
         processing_times := [[PT 10]]; berth_opening_times := [HOI 0 100] |}.
Proof. reflexivity. Qed.

(* ============================================================ *)
(** ** greedy_heuristic (solver.py) *)
(* ============================================================ *)

(** Python's tuple order on the sort key [(deadline, arrival)]. *)
Definition key_lt (inst : DBAPInstance) (v w : nat) : bool :=
  let dv := at_ (latest_departure_times inst) v in
  let dw := at_ (latest_departure_times inst) w in
  (dv <? dw) || ((dv =? dw) && (at_ (arrival_times inst) v <? at_ (arrival_times inst) w)).

(** [sorted(range(N), key=...)]: Python's sort is stable, which insertion
    of each index after every index of a smaller or equal key reproduces. *)
Fixpoint insert_sorted (inst : DBAPInstance) (v : nat) (l : list nat) : list nat :=
  match l with
  | [] => [v]
  | w :: r => if key_lt inst v w then v :: w :: r else w :: insert_sorted inst v r
  end.

Definition sorted_vessels (inst : DBAPInstance) : list nat :=
  fold_left (fun acc v => insert_sorted inst v acc)
    (seq 0 (Z.to_nat (num_vessels inst))) [].

(** [possible_end < best_finish] with [best_finish = float('inf')] as [None]. *)
Definition lt_best (x : Z) (best : option Z) : bool :=
  match best with None => true | Some f => x <? f end.

(** The berth scan state: [best_finish], [best_start], [best_b_id]. *)
Record best := { best_finish : option Z; best_start : Z; best_b_id : Z }.

Definition best_init : best := {| best_finish := None; best_start := -1; best_b_id := -1 |}.

(** One iteration [b_id] of the berth scan for vessel [v_id]. *)
Definition berth_step (inst : DBAPInstance) (berth_free_times : list Z)
    (v_id : nat) (arrival deadline : Z) (acc : best) (b_id : nat) : best :=
  let pt := get_processing_time inst v_id b_id in
  if is_invalid pt then acc else
  let duration := time pt in (* pt.value(): pt is valid here *)
  let berth_window := get_berth_interval inst b_id in
  let possible_start := Z.max (Z.max arrival (at_ berth_free_times b_id)) (hoi_start berth_window) in
  let possible_end := possible_start + duration in
  if (possible_end <=? hoi_finish berth_window) && (possible_end <=? deadline) then
    if lt_best possible_end (best_finish acc) then
      {| best_finish := Some possible_end; best_start := possible_start; best_b_id := Z.of_nat b_id |}
    else acc
  else acc.

(** The mutable lists of the heuristic. *)
Record greedy_state := {
  berth_free_times : list Z;
  v_berths : list Z;
  v_starts : list Z;
  v_ends : list Z
}.

(** [int(best_finish)]: [best_finish] is finite once a berth was chosen. *)
Definition int_of_best (f : option Z) : Z := match f with Some x => x | None => 0 end.

(** One iteration of the vessel loop; [None] is the [return None]. *)
Definition vessel_step (inst : DBAPInstance) (st : greedy_state) (v_id : nat)
    : option greedy_state :=
  let arrival := at_ (arrival_times inst) v_id in
  let deadline := at_ (latest_departure_times inst) v_id in
  let bst := fold_left (berth_step inst (berth_free_times st) v_id arrival deadline)
               (seq 0 (Z.to_nat (num_berths inst))) best_init in
  if best_b_id bst =? -1 then None else
  let fin := int_of_best (best_finish bst) in
  Some {| v_berths := <[v_id := best_b_id bst]> (v_berths st);
          v_starts := <[v_id := best_start bst]> (v_starts st);
          v_ends := <[v_id := fin]> (v_ends st);
          berth_free_times := <[Z.to_nat (best_b_id bst) := fin]> (berth_free_times st) |}.

Fixpoint vessel_loop (inst : DBAPInstance) (order : list nat) (st : greedy_state)
    : option greedy_state :=
  match order with
  | [] => Some st
  | v :: r => match vessel_step inst st v with
              | None => None
              | Some st' => vessel_loop inst r st'
              end
  end.

(** [try: return Solution(...) except ValueError: return None]. *)
Definition solution_or_none (r : result Solution) : option Solution :=
  match r with inl _ => None | inr s => Some s end.

Definition greedy_heuristic (inst : DBAPInstance) : option Solution :=
  if num_vessels inst =? 0 then solution_or_none (mk_solution [] [] [] [] []) else
  let n := Z.to_nat (num_vessels inst) in
  let st0 := {| berth_free_times :=
                  map (fun b => hoi_start (get_berth_interval inst b))
                      (seq 0 (Z.to_nat (num_berths inst)));
                v_berths := repeat 0 n; v_starts := repeat 0 n; v_ends := repeat 0 n |} in
  match vessel_loop inst (sorted_vessels inst) st0 with
  | None => None
  | Some st =>
      solution_or_none (mk_solution (v_berths st) (v_starts st) (v_ends st)
                          (vessel_weights inst) (arrival_times inst))
  end.

(** The lists [greedy_heuristic] starts its vessel loop from. *)
Definition greedy_initial_state (inst : DBAPInstance) : greedy_state :=
  let n := Z.to_nat (num_vessels inst) in
  {| berth_free_times :=
       map (fun b => hoi_start (get_berth_interval inst b))
           (seq 0 (Z.to_nat (num_berths inst)));
     v_berths := repeat 0 n; v_starts := repeat 0 n; v_ends := repeat 0 n |}.

(** Scenario B of the spec: 3 vessels, 2 berths. *)
Definition scenario_b : result DBAPInstance :=
  mk_instance 3 2 [1; 1; 1] [0; 5; 10] [100; 100; 100]
    [[PT 10; PT 12]; [PT 8; INVALID_PROCESSING_TIME]; [PT 6; PT 5]]
    [HOI 0 50; HOI 5 60].

Definition scenario_b_instance : DBAPInstance :=
  {| num_vessels := 3; num_berths := 2; vessel_weights := [1; 1; 1];
     arrival_times := [0; 5; 10]; latest_departure_times := [100; 100; 100];
     processing_times := [[PT 10; PT 12]; [PT 8; INVALID_PROCESSING_TIME]; [PT 6; PT 5]];
     berth_opening_times := [HOI 0 50; HOI 5 60] |}.

(** Scenario C of the spec: vessel 1 has no valid processing time on any berth. *)
Definition scenario_c_instance : DBAPInstance :=
  {| num_vessels := 2; num_berths := 2; vessel_weights := [1; 1];
     arrival_times := [0; 3]; latest_departure_times := [50; 50];
     processing_times := [[PT 4; PT 6]; [INVALID_PROCESSING_TIME; PT (-7)]];
     berth_opening_times := [HOI 0 50; HOI 0 50] |}.

(** The schedule the greedy heuristic produces on scenario B. *)
Definition scenario_b_greedy_solution : Solution :=
  {| vessel_berths := [0; 0; 1]; vessel_start_times := [0; 10; 10];
     vessel_end_times := [10; 18; 15];
     vessel_turnaround_times := [10; 13; 5];
     vessel_weighted_turnaround_times := [10; 13; 5];
     total_turnaround_time := 28; total_weighted_turnaround_time := 28 |}.

Example scenario_b_constructed : scenario_b = inr scenario_b_instance.
Proof. reflexivity. Qed.

Example greedy_scenario_b :
  match scenario_b with
  | inr inst => option_map (fun s => (vessel_berths s, vessel_start_times s, vessel_end_times s))
                  (greedy_heuristic inst)
  | inl _ => None
  end = Some ([0; 0; 1], [0; 10; 10], [10; 18; 15]).
Proof. vm_compute. reflexivity. Qed.

(* ============================================================ *)
(** ** solve (solver.py): horizon, model encoding, extraction *)
(* ============================================================ *)

(** [SolverConfig]; [time_limit_seconds] (a float) only reaches the engine
    and is left out. *)
Record SolverConfig := {
  num_workers : Z;
  log_search_progress : bool;
  random_seed : Z;
  use_hints : bool
}.

(** An integer decision [model.NewIntVar(lo, hi, name)]. *)
Record IntVar := { lb : Z; ub : Z }.

(** The variables and hints created for one eligible pair [(v, b)]: the
    presence literal, the optional interval [local_start, duration,
    local_end], the objective coefficient of the presence literal, the
    enforced bound [local_end <= finish], and the presence hint. *)
Record BerthOption := {
  opt_berth : nat;
  opt_duration : Z;
  opt_local_start : IntVar;
  opt_local_end : IntVar;
  opt_obj_coeff : Z;
  opt_finish_bound : Z;
  opt_hint : option Z
}.

(** The master variables of a vessel, their hints, the objective
    coefficient of the start, and its eligible pairs; the encoding adds
    [sum(presence) == 1] over [vv_options]. *)
Record VesselVars := {
  vv_start : IntVar;
  vv_berth : IntVar;
  vv_start_hint : option Z;
  vv_berth_hint : option Z;
  vv_obj_coeff : Z;
  vv_options : list BerthOption
}.

(** The encoded model: per-vessel variables in vessel order, and the
    objective's constant offset. The [AddNoOverlap] of berth [b] ranges over
    the options whose [opt_berth] is [b]. *)
Record CpModel := {
  model_vessels : list VesselVars;
  constant_offset : Z
}.

Global Instance VesselVars_inhabited : Inhabited VesselVars :=
  populate {| vv_start := {| lb := 0; ub := 0 |}; vv_berth := {| lb := 0; ub := 0 |};
              vv_start_hint := None; vv_berth_hint := None; vv_obj_coeff := 0;
              vv_options := [] |}.

Definition intervals_per_berth (m : CpModel) (b : nat) : list BerthOption :=
  filter (fun o => opt_berth o = b) (concat (map vv_options (model_vessels m))).

(** The loop of [sum_max_durations]; [None] is the early [return None]. *)
Definition valid_pts (row : list ProcessingTime) : list Z :=
  map time (List.filter is_valid row).

Fixpoint sum_max_durations (rows : list (list ProcessingTime)) (acc : Z) : option Z :=
  match rows with
  | [] => Some acc
  | row :: r =>
      match valid_pts row with
      | [] => None
      | x :: xs => sum_max_durations r (acc + fold_left Z.max xs x)
      end
  end.

(** The horizon computation ([None]: [solve] returns [None] there). *)
Definition compute_horizon (inst : DBAPInstance) : option Z :=
  let max_arrival := match py_max (arrival_times inst) with inr x => x | inl _ => 0 end in
  match sum_max_durations
          (map (fun v => at_ (processing_times inst) v) (seq 0 (Z.to_nat (num_vessels inst)))) 0 with
  | None => None
  | Some s =>
      let horizon := max_arrival + s in
      let global_deadline_max :=
        match py_max (latest_departure_times inst) with inr x => x | inl _ => 0 end in
      Some (Z.max horizon global_deadline_max)
  end.

(** The eligible pair [(v, b)] after both prunings, or [None] when skipped. *)
Definition encode_option (config : SolverConfig) (greedy_sol : option Solution)
    (inst : DBAPInstance) (v : nat) (arrival deadline weight : Z) (b : nat)
    : option BerthOption :=
  let pt := get_processing_time inst v b in
  if is_invalid pt then None else
  let duration := time pt in
  let berth_interval := get_berth_interval inst b in
  let earliest_finish := Z.max arrival (hoi_start berth_interval) + duration in
  if hoi_finish berth_interval <? earliest_finish then None else
  if deadline <? earliest_finish then None else
  let safe_min_start := Z.max arrival (hoi_start berth_interval) in
  Some {| opt_berth := b;
          opt_duration := duration;
          opt_local_start := {| lb := safe_min_start; ub := deadline |};
          opt_local_end := {| lb := safe_min_start + duration; ub := deadline |};
          opt_obj_coeff := weight * duration;
          opt_finish_bound := hoi_finish berth_interval;
          opt_hint := match greedy_sol with
                      | Some g => if use_hints config
                                  then Some (if at_ (vessel_berths g) v =? Z.of_nat b then 1 else 0)
                                  else None
                      | None => None
                      end |}.

(** The body of the vessel loop of the encoding; [None] is the
    [return None] when no pair of the vessel survives. *)
Definition encode_vessel (config : SolverConfig) (greedy_sol : option Solution)
    (inst : DBAPInstance) (v : nat) : option VesselVars :=
  let arrival := at_ (arrival_times inst) v in
  let deadline := at_ (latest_departure_times inst) v in
  let weight := at_ (vessel_weights inst) v in
  let hints := match greedy_sol with
               | Some g => if use_hints config then Some g else None
               | None => None
               end in
  let options := omap (encode_option config greedy_sol inst v arrival deadline weight)
                   (seq 0 (Z.to_nat (num_berths inst))) in
  match options with
  | [] => None
  | _ => Some {| vv_start := {| lb := arrival; ub := deadline |};
                 vv_berth := {| lb := 0; ub := num_berths inst - 1 |};
                 vv_start_hint := option_map (fun g => at_ (vessel_start_times g) v) hints;
                 vv_berth_hint := option_map (fun g => at_ (vessel_berths g) v) hints;
                 vv_obj_coeff := weight;
                 vv_options := options |}
  end.

Fixpoint encode_vessels (config : SolverConfig) (greedy_sol : option Solution)
    (inst : DBAPInstance) (vs : list nat) : option (list VesselVars) :=
  match vs with
  | [] => Some []
  | v :: r =>
      match encode_vessel config greedy_sol inst v with
      | None => None
      | Some vv => option_map (cons vv) (encode_vessels config greedy_sol inst r)
      end
  end.

(** What [solve] does before the engine: return early, or hand a model to
    the engine. *)
Inductive encode_outcome :=
| EarlyReturn (r : option Solution)
| Encoded (horizon : Z) (m : CpModel).

Definition solve_encode (config : SolverConfig) (inst : DBAPInstance) : encode_outcome :=
  if num_vessels inst =? 0 then EarlyReturn (solution_or_none (mk_solution [] [] [] [] [])) else
  let greedy_sol := greedy_heuristic inst in
  match compute_horizon inst with
  | None => EarlyReturn None
  | Some horizon =>
      let vs := seq 0 (Z.to_nat (num_vessels inst)) in
      match encode_vessels config greedy_sol inst vs with
      | None => EarlyReturn None
      | Some vvs =>
          Encoded horizon
            {| model_vessels := vvs;
               constant_offset :=
                 fold_left (fun acc v => acc - at_ (vessel_weights inst) v * at_ (arrival_times inst) v)
                   vs 0 |}
      end
  end.

Definition default_config : SolverConfig :=
  {| num_workers := 0; log_search_progress := true; random_seed := 42; use_hints := true |}.

(** The engine's answer: its status and, when it found one, the values of
    the berth and start variable of each vessel. *)
Inductive cp_status := OPTIMAL | FEASIBLE | INFEASIBLE | UNKNOWN | MODEL_INVALID.

Record engine_answer := {
  status : cp_status;
  value_berth : nat -> Z;
  value_start : nat -> Z
}.

(** Result extraction; [b_val] lies in the berth domain [[0, M-1]]. *)
Definition extract (inst : DBAPInstance) (ans : engine_answer) : result (option Solution) :=
  match status ans with
  | OPTIMAL | FEASIBLE =>
      let vs := seq 0 (Z.to_nat (num_vessels inst)) in
      match map_result (fun v =>
              let b_val := value_berth ans v in
              let s_val := value_start ans v in
              match value (get_processing_time inst v (Z.to_nat b_val)) with
              | inl e => inl e
              | inr duration => inr (b_val, s_val, s_val + duration)
              end) vs with
      | inl e => inl e
      | inr res =>
          match mk_solution (map (fun t => t.1.1) res) (map (fun t => t.1.2) res)
                  (map (fun t => t.2) res) (vessel_weights inst) (arrival_times inst) with
          | inl e => inl e
          | inr s => inr (Some s)
          end
      end
  | _ => inr None
  end.

(** [solve], with the optimization engine as a parameter. *)
Definition solve (engine : CpModel -> engine_answer) (config : SolverConfig)
    (inst : DBAPInstance) : result (option Solution) :=
  match solve_encode config inst with
  | EarlyReturn r => inr r
  | Encoded _ m => extract inst (engine m)
  end.

(** Sum of a list of Python ints. *)
Definition zsum (l : list Z) : Z := fold_right Z.add 0 l.

(** The value of the objective [sum(obj_terms) + constant_offset] when the
    master berth and start variables of vessel [v] take [berth v] and
    [start v]: the term [weight * v_start] of each vessel, plus
    [weight * duration] for its presence literal that is true, the one of
    the pair whose berth is [berth v] (the constraints
    [v_berth == b].OnlyEnforceIf(is_present) and [sum(presence) == 1]). *)
Definition objective_value (m : CpModel) (berth start : nat -> Z) : Z :=
  zsum (map (fun v =>
           let vv := at_ (model_vessels m) v in
           vv_obj_coeff vv * start v +
           zsum (map (fun o => if berth v =? Z.of_nat (opt_berth o) then opt_obj_coeff o else 0)
                     (vv_options vv)))
         (seq 0 (length (model_vessels m))))
  + constant_offset m.

(** Scenario B encoded with the default configuration, and an engine
    answer that reports the greedy schedule as optimal. *)
Definition scenario_b_encoded : Z * CpModel :=
  match solve_encode default_config scenario_b_instance with
  | Encoded h m => (h, m)
  | EarlyReturn _ => (0, {| model_vessels := []; constant_offset := 0 |})
  end.

Definition scenario_b_answer : engine_answer :=
  {| status := OPTIMAL; value_berth := fun v => at_ [0; 0; 1] v;
     value_start := fun v => at_ [0; 10; 10] v |}.

(* ============================================================ *)
(** * Properties *)
(* ============================================================ *)

Module PTProps.

Lemma is_invalid_negb (p : ProcessingTime) : is_invalid p = negb (is_valid p).
Proof. unfold is_invalid, is_valid. destruct (Z.ltb_spec (time p) 0), (Z.leb_spec 0 (time p)); auto; lia. Qed.

Lemma invalid_INVALID : is_invalid INVALID_PROCESSING_TIME = true.
Proof. reflexivity. Qed.

Lemma combine_invalid (a : ProcessingTime) (b : operand) op :
  is_invalid a = true \/ is_invalid (as_pt b) = true ->
  _combine a b op = INVALID_PROCESSING_TIME.
Proof.
  rewrite !is_invalid_negb. unfold _combine. intros [H | H];
    apply negb_true_iff in H; rewrite H; [reflexivity|].
  rewrite andb_false_r. reflexivity.
Qed.

(** C5: invalidity propagates through [+], [-], [*] and [//], with a
    [ProcessingTime] or a raw int on the right; a valid [a] divided by a
    valid zero yields the invalid value. *)
Theorem pt_arith_propagates_invalid (a : ProcessingTime) (b : operand) :
  (is_invalid a = true \/ is_invalid (as_pt b) = true ->
     is_invalid (pt_add a b) = true /\ is_invalid (pt_sub a b) = true /\
     is_invalid (pt_mul a b) = true /\ is_invalid (pt_floordiv a b) = true) /\
  (is_valid a = true -> is_valid (as_pt b) = true -> time (as_pt b) = 0 ->
     is_invalid (pt_floordiv a b) = true).
Proof.
  split.
  - intros H. unfold pt_add, pt_sub, pt_mul.
    rewrite !combine_invalid by exact H.
    repeat split; try reflexivity.
    unfold pt_floordiv. rewrite !is_invalid_negb in H.
    destruct H as [H | H]; apply negb_true_iff in H; rewrite H;
      [reflexivity | rewrite andb_false_r; reflexivity].
  - intros _ _ H0. unfold pt_floordiv. rewrite H0. simpl.
    rewrite andb_false_r. reflexivity.
Qed.

Lemma pt_arith_propagates_invalid_witness :
  (is_invalid (pt_add (PT 3) (OpInt (-4))) = true /\
   is_invalid (pt_sub (PT 3) (OpInt (-4))) = true /\
   is_invalid (pt_mul (PT 3) (OpInt (-4))) = true /\
   is_invalid (pt_floordiv (PT 3) (OpInt (-4))) = true) /\
  is_invalid (pt_floordiv (PT 7) (OpPT (PT 0))) = true.
Proof.
  split.
  - apply (proj1 (pt_arith_propagates_invalid (PT 3) (OpInt (-4)))).
    right. reflexivity.
  - apply (proj2 (pt_arith_propagates_invalid (PT 7) (OpPT (PT 0))));
      reflexivity.
Defined.

(** C10: [is_invalid] tests the sign of the stored integer, so a negative
    time other than the sentinel is invalid too, and the difference of two
    valid times [a < b] is an invalid value whose [value()] raises. *)
Theorem sub_of_valid_times_invalid (a b : ProcessingTime) :
  (forall p, is_invalid p = true <-> time p < 0) /\
  is_invalid (PT (-2)) = true /\ PT (-2) <> INVALID_PROCESSING_TIME /\
  (is_valid a = true -> is_valid b = true -> time a < time b ->
     is_invalid (pt_sub a (OpPT b)) = true /\ value (pt_sub a (OpPT b)) = inl ValueError).
Proof.
  split; [|split; [reflexivity | split; [discriminate|]]].
  - intros p. unfold is_invalid. apply Z.ltb_lt.
  - intros Ha Hb Hlt. unfold pt_sub, _combine. simpl. rewrite Ha, Hb. simpl.
    unfold is_invalid, value, is_valid. simpl.
    assert (time a - time b < 0) by lia.
    rewrite (proj2 (Z.ltb_lt _ _) H).
    destruct (Z.leb_spec 0 (time a - time b)); [lia|]. split; reflexivity.
Qed.

Lemma sub_of_valid_times_invalid_witness :
  is_invalid (pt_sub (PT 2) (OpPT (PT 5))) = true /\
  value (pt_sub (PT 2) (OpPT (PT 5))) = inl ValueError.
Proof.
  apply (proj2 (proj2 (proj2 (sub_of_valid_times_invalid (PT 2) (PT 5)))));
    first [reflexivity | lia].
Defined.

End PTProps.

Module IntervalProps.

(** C9: an interval overlaps itself exactly when it is non-empty. *)
Theorem overlaps_self_iff_nonempty (s e : Z) (x : HalfOpenInterval) :
  mk_interval s e = inr x -> overlaps x x = negb (is_empty x).
Proof.
  unfold mk_interval. destruct (Z.ltb_spec e s) as [Hlt | Hge]; [discriminate|].
  intros H. injection H as <-.
  unfold overlaps, is_empty, hoi_len. simpl.
  destruct (Z.ltb_spec s e), (Z.eqb_spec (e - s) 0); simpl; lia.
Qed.

Lemma overlaps_self_iff_nonempty_witness :
  overlaps (HOI 3 3) (HOI 3 3) = negb (is_empty (HOI 3 3)) /\
  overlaps (HOI 3 8) (HOI 3 8) = negb (is_empty (HOI 3 8)).
Proof.
  split; [apply (overlaps_self_iff_nonempty 3 3) | apply (overlaps_self_iff_nonempty 3 8)];
    reflexivity.
Defined.

End IntervalProps.

Module SolutionProps.

Lemma for_each_app {S} (l1 l2 : list nat) (body : nat -> S -> result S) (st : S) :
  for_each (l1 ++ l2) body st =
  match for_each l1 body st with inl e => inl e | inr st' => for_each l2 body st' end.
Proof.
  revert st. induction l1 as [|i l1 IH]; intros st; simpl; [reflexivity|].
  destruct (body i st); [reflexivity | apply IH].
Qed.

Section Metrics.
Variables starts ends weights arrivals : list Z.

Definition ta_of (i : nat) : Z := at_ ends i - at_ arrivals i.

Definition metrics_upto (k : nat) : metrics :=
  {| m_turn := map ta_of (seq 0 k);
     m_weighted := map (fun i => ta_of i * at_ weights i) (seq 0 k);
     m_total_ta := zsum (map ta_of (seq 0 k));
     m_total_wta := zsum (map (fun i => at_ weights i * ta_of i) (seq 0 k)) |}.

Lemma zsum_app (l1 l2 : list Z) : zsum (l1 ++ l2) = zsum l1 + zsum l2.
Proof. induction l1; simpl; lia. Qed.

Lemma metric_loop_ok (k : nat) :
  (forall i, (i < k)%nat -> at_ starts i <= at_ ends i) ->
  for_each (seq 0 k) (metric_step starts ends weights arrivals)
    {| m_turn := []; m_weighted := []; m_total_ta := 0; m_total_wta := 0 |}
  = inr (metrics_upto k).
Proof.
  induction k as [|k IH]; intros Hle; [reflexivity|].
  rewrite seq_S, for_each_app, IH by (intros; apply Hle; lia).
  cbn [for_each]. unfold metric_step. cbv zeta.
  rewrite Nat.add_0_l, (proj2 (Z.ltb_ge (at_ ends k) (at_ starts k)) (Hle k ltac:(lia))).
  unfold metrics_upto. rewrite !seq_S, !map_app, !zsum_app. cbn [map zsum fold_right].
  unfold ta_of. cbn [m_turn m_weighted m_total_ta m_total_wta]. rewrite !Z.add_0_r.
  f_equal. f_equal; try reflexivity. rewrite Nat.add_0_l. lia.
Qed.

Lemma metric_loop_fails (k i : nat) :
  (i < k)%nat -> at_ ends i < at_ starts i ->
  exists e, for_each (seq 0 k) (metric_step starts ends weights arrivals)
    {| m_turn := []; m_weighted := []; m_total_ta := 0; m_total_wta := 0 |} = inl e.
Proof.
  induction k as [|k IH]; intros Hi Hlt; [lia|].
  rewrite seq_S, for_each_app.
  destruct (decide (i < k)%nat) as [Hik|Hik].
  - destruct (IH Hik Hlt) as [e ->]. eauto.
  - assert (i = k) as -> by lia.
    destruct (for_each (seq 0 k) _ _) as [e|acc]; [eauto|].
    simpl. unfold metric_step. rewrite (proj2 (Z.ltb_lt _ _) Hlt). eauto.
Qed.

End Metrics.

Lemma fold_max_ge (l : list Z) (x : Z) : x <= fold_left Z.max l x.
Proof.
  revert x. induction l as [|y l IH]; intros x; simpl; [lia|].
  specialize (IH (Z.max x y)). lia.
Qed.

Lemma fold_max_spec (l : list Z) (x : Z) :
  In (fold_left Z.max l x) (x :: l) /\ Forall (fun y => y <= fold_left Z.max l x) (x :: l).
Proof.
  revert x. induction l as [|y l IH]; intros x; simpl.
  - split; [left; reflexivity | constructor; [lia | constructor]].
  - destruct (IH (Z.max x y)) as [Hin Hall].
    inversion Hall as [|? ? Hm Hrest]; subst.
    split.
    + destruct Hin as [Heq | Hin]; [|right; right; exact Hin].
      rewrite <- Heq. destruct (Z.max_spec x y) as [[_ ->] | [_ ->]]; auto.
    + constructor; [lia|]. constructor; [lia|exact Hrest].
Qed.

(** C7: a constructed [Solution] has [end >= start] for every vessel (and
    construction raises otherwise), [turnaround = end - arrival],
    [weighted = turnaround * weight], total weighted turnaround the sum of
    [weight * turnaround], and makespan the maximum end time, 0 when empty. *)
Theorem solution_derived_metrics (berths starts ends weights arrivals : list Z) :
  let n := length berths in
  (forall sol, mk_solution berths starts ends weights arrivals = inr sol ->
     (forall i, (i < n)%nat -> at_ starts i <= at_ ends i) /\
     vessel_turnaround_times sol = map (fun i => at_ ends i - at_ arrivals i) (seq 0 n) /\
     vessel_weighted_turnaround_times sol =
       map (fun i => (at_ ends i - at_ arrivals i) * at_ weights i) (seq 0 n) /\
     total_weighted_turnaround_time sol =
       zsum (map (fun i => at_ weights i * (at_ ends i - at_ arrivals i)) (seq 0 n)) /\
     (n = 0%nat -> makespan sol = 0) /\
     ((0 < n)%nat -> In (makespan sol) (vessel_end_times sol) /\
                     Forall (fun e => e <= makespan sol) (vessel_end_times sol))) /\
  (length starts = n -> length ends = n -> length weights = n -> length arrivals = n ->
   (exists i, (i < n)%nat /\ at_ ends i < at_ starts i) ->
   exists err, mk_solution berths starts ends weights arrivals = inl err).
Proof.
  intros n. split.
  - intros sol Hmk. unfold mk_solution in Hmk. fold n in Hmk.
    destruct (Nat.eqb_spec (length starts) n); [|discriminate].
    destruct (Nat.eqb_spec (length ends) n) as [Hends|]; [|discriminate].
    destruct (Nat.eqb_spec (length weights) n); [|discriminate].
    destruct (Nat.eqb_spec (length arrivals) n); [|discriminate].
    simpl in Hmk.
    assert (Hle : forall i, (i < n)%nat -> at_ starts i <= at_ ends i).
    { intros i Hi. destruct (Z.le_gt_cases (at_ starts i) (at_ ends i)) as [|Hgt]; [assumption|].
      destruct (metric_loop_fails starts ends weights arrivals n i Hi ltac:(lia)) as [err He].
      rewrite He in Hmk. discriminate. }
    rewrite (metric_loop_ok starts ends weights arrivals n Hle) in Hmk.
    injection Hmk as <-. simpl.
    split; [exact Hle|]. split; [reflexivity|]. split; [reflexivity|]. split; [reflexivity|].
    unfold makespan. simpl. split.
    + intros Hn. rewrite Hn in Hends. destruct ends; [reflexivity | discriminate].
    + intros Hn. destruct ends as [|x r]; [simpl in Hends; lia|].
      apply fold_max_spec.
  - intros Hs He Hw Ha [i [Hi Hlt]]. unfold mk_solution. fold n.
    rewrite Hs, He, Hw, Ha, Nat.eqb_refl. simpl.
    destruct (metric_loop_fails starts ends weights arrivals n i Hi Hlt) as [e ->].
    eauto.
Qed.

Lemma solution_derived_metrics_witness :
  total_weighted_turnaround_time
    (match mk_solution [0; 1] [0; 4] [10; 9] [2; 3] [0; 1] with
     | inr s => s
     | inl _ => {| vessel_berths := []; vessel_start_times := []; vessel_end_times := [];
                   vessel_turnaround_times := []; vessel_weighted_turnaround_times := [];
                   total_turnaround_time := 0; total_weighted_turnaround_time := 0 |}
     end) = zsum (map (fun i => at_ [2; 3] i * (at_ [10; 9] i - at_ [0; 1] i)) (seq 0 2)) /\
  exists err, mk_solution [0; 1] [0; 4] [10; 3] [2; 3] [0; 1] = inl err.
Proof.
  split.
  - apply (proj1 (solution_derived_metrics [0; 1] [0; 4] [10; 9] [2; 3] [0; 1])).
    reflexivity.
  - apply (proj2 (solution_derived_metrics [0; 1] [0; 4] [10; 3] [2; 3] [0; 1]));
      try reflexivity.
    exists 1%nat. split; [simpl; lia | vm_compute; reflexivity].
Defined.

End SolutionProps.

Module ParseProps.

Lemma pbind_ok {A B} (p : parser A) (k : A -> parser B) ts x r :
  p ts = inr (x, r) -> pbind p k ts = k x r.
Proof. intros H. unfold pbind. rewrite H. reflexivity. Qed.

Section Repeat.
Context {A W : Type} (p : parser A) (enc : W -> list token) (f : W -> A) (P : W -> Prop).

Lemma repeatP_ok :
  (forall w r, P w -> p (enc w ++ r) = inr (f w, r)) ->
  forall ws r, Forall P ws ->
  repeatP (length ws) p (concat (map enc ws) ++ r) = inr (map f ws, r).
Proof.
  intros Hp ws r Hall. induction Hall as [|w ws Hw Hws IH]; [reflexivity|].
  simpl. rewrite <- app_assoc. unfold pbind at 1. rewrite Hp by exact Hw.
  unfold pbind. rewrite IH. reflexivity.
Qed.

Lemma repeatP_inv :
  (forall ts x r, p ts = inr (x, r) -> exists w, P w /\ ts = enc w ++ r /\ x = f w) ->
  forall k ts xs r, repeatP k p ts = inr (xs, r) ->
  exists ws, Forall P ws /\ length ws = k /\ ts = concat (map enc ws) ++ r /\ xs = map f ws.
Proof.
  intros Hp k. induction k as [|k IH]; intros ts xs r H; simpl in H.
  - injection H as <- <-. exists []. repeat split; constructor.
  - unfold pbind in H. destruct (p ts) as [e|[x ts1]] eqn:E1; [discriminate|].
    destruct (repeatP k p ts1) as [e|[xs1 ts2]] eqn:E2; [discriminate|].
    injection H as <- <-.
    destruct (Hp _ _ _ E1) as [w [Hw [-> ->]]].
    destruct (IH _ _ _ E2) as [ws [Hws [Hlen [-> ->]]]].
    exists (w :: ws). split; [constructor; assumption|]. split; [simpl; lia|].
    split; [|reflexivity]. simpl. rewrite app_assoc. reflexivity.
Qed.

End Repeat.

Lemma concat_singletons (xs : list Z) : concat (map (fun z => [Some z]) xs) = map Some xs.
Proof. induction xs; simpl; congruence. Qed.

Lemma read_ints_ok (xs : list Z) r :
  repeatP (length xs) read_int (map Some xs ++ r) = inr (xs, r).
Proof.
  rewrite <- concat_singletons.
  rewrite (repeatP_ok read_int (fun z => [Some z]) id (fun _ => True)).
  - rewrite map_id. reflexivity.
  - intros; reflexivity.
  - apply Forall_forall. intros; exact I.
Qed.

Lemma read_row_ok thr (row : list Z) r :
  repeatP (length row) (read_pt thr) (map Some row ++ r) = inr (map (convert_pt thr) row, r).
Proof.
  rewrite <- concat_singletons.
  apply (repeatP_ok (read_pt thr) (fun z => [Some z]) (convert_pt thr) (fun _ => True)).
  - intros; reflexivity.
  - apply Forall_forall. intros; exact I.
Qed.

Lemma read_matrix_ok thr (k : nat) (rows : list (list Z)) r :
  Forall (fun row => length row = k) rows ->
  repeatP (length rows) (repeatP k (read_pt thr)) (map Some (concat rows) ++ r)
  = inr (map (map (convert_pt thr)) rows, r).
Proof.
  intros Hrows. rewrite concat_map.
  apply (repeatP_ok (repeatP k (read_pt thr)) (map Some) (map (convert_pt thr))
           (fun row => length row = k)); [|exact Hrows].
  intros w r' <-. apply read_row_ok.
Qed.

Lemma read_ints_len (k : nat) (xs : list Z) r :
  length xs = k -> repeatP k read_int (map Some xs ++ r) = inr (xs, r).
Proof. intros <-. apply read_ints_ok. Qed.

Lemma read_matrix_len thr (n k : nat) (rows : list (list Z)) r :
  length rows = n -> Forall (fun row => length row = k) rows ->
  repeatP n (repeatP k (read_pt thr)) (map Some (concat rows) ++ r)
  = inr (map (map (convert_pt thr)) rows, r).
Proof. intros <-. apply read_matrix_ok. Qed.

Lemma map_result_ok {A B} (f : A -> result B) (g : A -> B) (l : list A) :
  (forall x, In x l -> f x = inr (g x)) -> map_result f l = inr (map g l).
Proof.
  induction l as [|x l IH]; intros H; [reflexivity|]. simpl.
  rewrite H by (left; reflexivity). rewrite IH by (intros; apply H; right; assumption).
  reflexivity.
Qed.

Lemma existsb_false_forall {A} (f : A -> bool) (l : list A) :
  existsb f l = false -> forall x, In x l -> f x = false.
Proof.
  intros H x Hx. destruct (f x) eqn:E; [|reflexivity].
  assert (existsb f l = true) by (apply existsb_exists; eauto). congruence.
Qed.

Lemma zlen_to_nat {A} (l : list A) (n : Z) : 0 < n -> length l = Z.to_nat n -> zlen l = n.
Proof. intros Hn Hl. unfold zlen. rewrite Hl. lia. Qed.

(** [parse_instance] on a serialized instance with arrays of the declared
    sizes: the two validation loops decide, and on success the instance
    holds the arrays read, the converted matrix and the half-open windows. *)
Lemma parse_serialized thr n m arr opens rows ends lates rest :
  0 < n -> 0 < m ->
  length arr = Z.to_nat n -> length opens = Z.to_nat m ->
  length rows = Z.to_nat n -> Forall (fun row => length row = Z.to_nat m) rows ->
  length ends = Z.to_nat m -> length lates = Z.to_nat n ->
  parse_instance (serialize n m arr opens rows ends lates ++ rest) thr =
  if existsb (fun i => at_ ends i <? at_ opens i) (seq 0 (Z.to_nat m)) then inl ValueError
  else if existsb (fun i => at_ lates i <? at_ arr i) (seq 0 (Z.to_nat n)) then inl ValueError
  else inr {| num_vessels := n; num_berths := m;
              vessel_weights := repeat 1 (Z.to_nat n);
              arrival_times := arr; latest_departure_times := lates;
              processing_times := map (map (convert_pt thr)) rows;
              berth_opening_times :=
                map (fun i => HOI (at_ opens i) (at_ ends i + 1)) (seq 0 (Z.to_nat m)) |}.
Proof.
  intros Hn Hm Harr Hop Hrows Hrowlen Hends Hlates.
  unfold parse_instance, serialize. rewrite !map_app, <- !app_assoc. cbn [map app].
  unfold parse_body.
  erewrite pbind_ok by reflexivity. erewrite pbind_ok by reflexivity.
  rewrite (proj2 (Z.leb_gt n 0) Hn), (proj2 (Z.leb_gt m 0) Hm).
  rewrite (pbind_ok _ _ _ _ _ (read_ints_len _ arr _ Harr)).
  rewrite (pbind_ok _ _ _ _ _ (read_ints_len _ opens _ Hop)).
  rewrite (pbind_ok _ _ _ _ _ (read_matrix_len thr _ _ rows _ Hrows Hrowlen)).
  rewrite (pbind_ok _ _ _ _ _ (read_ints_len _ ends _ Hends)).
  destruct (existsb _ (seq 0 (Z.to_nat m))) eqn:Ew; [reflexivity|].
  rewrite (pbind_ok _ _ _ _ _ (read_ints_len _ lates _ Hlates)).
  destruct (existsb _ (seq 0 (Z.to_nat n))) eqn:Ea; [reflexivity|].
  rewrite (map_result_ok _ (fun i => HOI (at_ opens i) (at_ ends i + 1))).
  2:{ intros i Hi. unfold mk_interval.
      pose proof (existsb_false_forall _ _ Ew i Hi) as Hi'. simpl in Hi'.
      destruct (Z.ltb_spec (at_ ends i + 1) (at_ opens i)); [|reflexivity].
      apply Z.ltb_ge in Hi'. lia. }
  unfold pbind, lift, mk_instance.
  rewrite (zlen_to_nat (repeat 1 (Z.to_nat n)) n Hn) by apply repeat_length.
  rewrite (zlen_to_nat arr n Hn Harr), (zlen_to_nat lates n Hn Hlates).
  rewrite (zlen_to_nat (map (map (convert_pt thr)) rows) n Hn) by (rewrite length_map; exact Hrows).
  rewrite (zlen_to_nat (map (fun i => HOI (at_ opens i) (at_ ends i + 1)) (seq 0 (Z.to_nat m))) m Hm)
    by (rewrite length_map, length_seq; reflexivity).
  rewrite !Z.eqb_refl. cbn [negb].
  replace (existsb _ (map (map (convert_pt thr)) rows)) with false.
  { reflexivity. }
  symmetry. apply not_true_iff_false. intros Hex.
  apply existsb_exists in Hex as [row [Hin Hrow]].
  apply in_map_iff in Hin as [row0 [<- Hin0]].
  rewrite List.Forall_forall in Hrowlen. specialize (Hrowlen row0 Hin0).
  rewrite (zlen_to_nat (map (convert_pt thr) row0) m Hm) in Hrow
    by (rewrite List.length_map; exact Hrowlen).
  rewrite Z.eqb_refl in Hrow. discriminate.
Qed.

Lemma at_map {A B} `{Inhabited A} `{Inhabited B} (f : A -> B) (l : list A) (i : nat) :
  (i < length l)%nat -> at_ (map f l) i = f (at_ l i).
Proof.
  revert i. induction l as [|x l IH]; intros i Hi; simpl in Hi; [lia|].
  destruct i as [|i]; [reflexivity|]. apply (IH i). lia.
Qed.

Lemma at_In {A} `{Inhabited A} (l : list A) (i : nat) :
  (i < length l)%nat -> In (at_ l i) l.
Proof.
  revert i. induction l as [|x l IH]; intros i Hi; simpl in Hi; [lia|].
  destruct i as [|i]; [left; reflexivity|]. right. apply (IH i). lia.
Qed.

Lemma at_seq (s k i : nat) : (i < k)%nat -> at_ (seq s k) i = (s + i)%nat.
Proof.
  revert s i. induction k as [|k IH]; intros s i Hi; [lia|].
  destruct i as [|i]; simpl; [lia|]. unfold at_ in *. simpl. rewrite IH by lia. lia.
Qed.

Lemma parse_serialized_ok thr n m arr opens rows ends lates rest inst :
  0 < n -> 0 < m ->
  length arr = Z.to_nat n -> length opens = Z.to_nat m ->
  length rows = Z.to_nat n -> Forall (fun row => length row = Z.to_nat m) rows ->
  length ends = Z.to_nat m -> length lates = Z.to_nat n ->
  parse_instance (serialize n m arr opens rows ends lates ++ rest) thr = inr inst ->
  processing_times inst = map (map (convert_pt thr)) rows /\ berth_opening_times inst =
    map (fun i => HOI (at_ opens i) (at_ ends i + 1)) (seq 0 (Z.to_nat m)).
Proof.
  intros Hn Hm Harr Hop Hrows Hrowlen Hends Hlates.
  rewrite parse_serialized by assumption.
  destruct (existsb _ _); [discriminate|]. destruct (existsb _ _); [discriminate|].
  intros H. injection H as <-. split; reflexivity.
Qed.

(** C4 as stated fails: a negative processing-time token below the
    threshold is stored as [ProcessingTime(h)], which is not valid. *)
Lemma parse_negative_time_not_valid :
  exists inst,
    parse_instance (serialize 1 1 [0] [0] [[-5]] [10] [100]) 99999 = inr inst /\ -5 < 99999 /\ is_valid (get_processing_time inst 0 0) = false.
Proof. eexists. split; [reflexivity | split; [lia | reflexivity]]. Qed.

(** C4 (amended): every processing-time token [h] at or above the
    threshold is stored as the invalid sentinel; below it, it is stored as
    [ProcessingTime(h)], which is valid exactly when [h >= 0]. *)
Theorem parse_processing_time_conversion thr n m arr opens rows ends lates rest inst
    (v b : nat) :
  0 < n -> 0 < m ->
  length arr = Z.to_nat n -> length opens = Z.to_nat m ->
  length rows = Z.to_nat n -> Forall (fun row => length row = Z.to_nat m) rows ->
  length ends = Z.to_nat m -> length lates = Z.to_nat n ->
  parse_instance (serialize n m arr opens rows ends lates ++ rest) thr = inr inst ->
  (v < Z.to_nat n)%nat -> (b < Z.to_nat m)%nat ->
  let h := at_ (at_ rows v) b in
  (thr <= h -> get_processing_time inst v b = INVALID_PROCESSING_TIME) /\ (h < thr -> get_processing_time inst v b = PT h /\ (is_valid (get_processing_time inst v b) = true <-> 0 <= h)).
Proof.
  intros Hn Hm Harr Hop Hrows Hrowlen Hends Hlates Hparse Hv Hb h.
  destruct (parse_serialized_ok thr n m arr opens rows ends lates rest inst)
    as [Hproc _]; try assumption.
  assert (Hget : get_processing_time inst v b = convert_pt thr h).
  { unfold get_processing_time. rewrite Hproc, at_map by lia.
    apply at_map. rewrite List.Forall_forall in Hrowlen.
    rewrite Hrowlen; [lia|]. apply at_In. lia. }
  rewrite Hget. unfold convert_pt. split.
  - intros Hle. rewrite (proj2 (Z.leb_le thr h) Hle). reflexivity.
  - intros Hlt. rewrite (proj2 (Z.leb_gt thr h) Hlt). split; [reflexivity|].
    unfold is_valid. simpl. apply Z.leb_le.
Qed.

Lemma parse_processing_time_conversion_witness :
  exists inst,
    parse_instance (serialize 1 2 [0] [0; 0] [[7; 99999]] [10; 10] [100]) 99999 = inr inst /\ get_processing_time inst 0 1 = INVALID_PROCESSING_TIME /\ get_processing_time inst 0 0 = PT 7 /\ is_valid (get_processing_time inst 0 0) = true.
Proof.
  eexists. split; [reflexivity|].
  destruct (parse_processing_time_conversion 99999 1 2 [0] [0; 0] [[7; 99999]] [10; 10] [100] []
              {| num_vessels := 1; num_berths := 2; vessel_weights := [1];
                 arrival_times := [0]; latest_departure_times := [100];
                 processing_times := [[PT 7; INVALID_PROCESSING_TIME]];
                 berth_opening_times := [HOI 0 11; HOI 0 11] |} 0 1)
    as [Hinv _]; try (vm_compute; reflexivity); try lia.
  { repeat constructor. }
  destruct (parse_processing_time_conversion 99999 1 2 [0] [0; 0] [[7; 99999]] [10; 10] [100] []
              {| num_vessels := 1; num_berths := 2; vessel_weights := [1];
                 arrival_times := [0]; latest_departure_times := [100];
                 processing_times := [[PT 7; INVALID_PROCESSING_TIME]];
                 berth_opening_times := [HOI 0 11; HOI 0 11] |} 0 0)
    as [_ Hval]; try (vm_compute; reflexivity); try lia.
  { repeat constructor. }
  split; [apply Hinv; vm_compute; discriminate|].
  destruct Hval as [Hpt Hv]; [vm_compute; reflexivity|].
  split; [exact Hpt|]. apply Hv. vm_compute. discriminate.
Defined.

(** C8: the closed input window [[open_i, close_i]] of each berth is
    stored as [[open_i, close_i + 1)], so writing it back in closed form
    gives [open_i] and [close_i] again. *)
Theorem parse_window_roundtrip thr n m arr opens rows ends lates rest inst (i : nat) :
  0 < n -> 0 < m ->
  length arr = Z.to_nat n -> length opens = Z.to_nat m ->
  length rows = Z.to_nat n -> Forall (fun row => length row = Z.to_nat m) rows ->
  length ends = Z.to_nat m -> length lates = Z.to_nat n ->
  parse_instance (serialize n m arr opens rows ends lates ++ rest) thr = inr inst ->
  (i < Z.to_nat m)%nat ->
  get_berth_interval inst i = HOI (at_ opens i) (at_ ends i + 1) /\ start_inclusive (get_berth_interval inst i) = at_ opens i /\ end_exclusive (get_berth_interval inst i) - 1 = at_ ends i.
Proof.
  intros Hn Hm Harr Hop Hrows Hrowlen Hends Hlates Hparse Hi.
  destruct (parse_serialized_ok thr n m arr opens rows ends lates rest inst)
    as [_ Hwin]; try assumption.
  assert (Hget : get_berth_interval inst i = HOI (at_ opens i) (at_ ends i + 1)).
  { unfold get_berth_interval. rewrite Hwin, at_map by (rewrite length_seq; lia).
    rewrite at_seq by lia. reflexivity. }
  rewrite Hget. simpl. split; [reflexivity | split; [reflexivity | lia]].
Qed.

Lemma parse_window_roundtrip_witness :
  exists inst,
    parse_instance (serialize 1 2 [0] [3; 4] [[7; 8]] [10; 20] [100]) 99999 = inr inst /\ start_inclusive (get_berth_interval inst 1) = 4 /\ end_exclusive (get_berth_interval inst 1) - 1 = 20.
Proof.
  eexists. split; [reflexivity|].
  destruct (parse_window_roundtrip 99999 1 2 [0] [3; 4] [[7; 8]] [10; 20] [100] []
              {| num_vessels := 1; num_berths := 2; vessel_weights := [1];
                 arrival_times := [0]; latest_departure_times := [100];
                 processing_times := [[PT 7; PT 8]];
                 berth_opening_times := [HOI 3 11; HOI 4 21] |} 1)
    as [_ H]; try (vm_compute; reflexivity); try lia.
  { repeat constructor. }
  exact H.
Defined.

End ParseProps.

Module InstanceProps.

Lemma mk_instance_inv n m weights arrivals latest proc windows inst :
  mk_instance n m weights arrivals latest proc windows = inr inst ->
  inst = {| num_vessels := n; num_berths := m; vessel_weights := weights;
            arrival_times := arrivals; latest_departure_times := latest;
            processing_times := proc; berth_opening_times := windows |} /\
  zlen weights = n /\ zlen arrivals = n /\ zlen latest = n /\ zlen proc = n /\
  Forall (fun row => zlen row = m) proc /\ zlen windows = m.
Proof.
  unfold mk_instance.
  destruct (Z.eqb_spec (zlen weights) n); [|discriminate].
  destruct (Z.eqb_spec (zlen arrivals) n); [|discriminate].
  destruct (Z.eqb_spec (zlen latest) n); [|discriminate].
  destruct (Z.eqb_spec (zlen proc) n); [|discriminate].
  destruct (existsb _ proc) eqn:Erows; [discriminate|].
  destruct (Z.eqb_spec (zlen windows) m); [|discriminate].
  intros H. injection H as <-. repeat split; try assumption.
  apply List.Forall_forall. intros row Hrow.
  pose proof (ParseProps.existsb_false_forall _ _ Erows row Hrow) as Hr. simpl in Hr.
  apply negb_false_iff, Z.eqb_eq in Hr. exact Hr.
Qed.

Lemma pbind_inv {A B} (p : parser A) (k : A -> parser B) ts y :
  pbind p k ts = inr y -> exists x r, p ts = inr (x, r) /\ k x r = inr y.
Proof.
  unfold pbind. destruct (p ts) as [e|[x r]]; [discriminate|]. eauto.
Qed.

Lemma lift_inv {A} (r : result A) ts y : lift r ts = inr y -> exists x, r = inr x /\ y = (x, ts).
Proof. unfold lift. destruct r as [e|x]; [discriminate|]. intros H. injection H as <-. eauto. Qed.

Lemma map_result_inv {A B} (f : A -> result B) (l : list A) (ys : list B) :
  map_result f l = inr ys -> forall y, In y ys -> exists x, In x l /\ f x = inr y.
Proof.
  revert ys. induction l as [|x l IH]; intros ys H y Hy; simpl in H.
  - injection H as <-. destruct Hy.
  - destruct (f x) as [e|y0] eqn:Ef; [discriminate|].
    destruct (map_result f l) as [e|ys0] eqn:Er; [discriminate|].
    injection H as <-. destruct Hy as [<- | Hy].
    + exists x. split; [left; reflexivity | exact Ef].
    + destruct (IH ys0 eq_refl y Hy) as [x' [Hx' Hf]]. exists x'. split; [right|]; assumption.
Qed.

Lemma mk_interval_ordered s e x : mk_interval s e = inr x -> start_inclusive x <= end_exclusive x.
Proof.
  unfold mk_interval. destruct (Z.ltb_spec e s); [discriminate|].
  intros Hx. injection Hx as <-. simpl. lia.
Qed.

(** C3 as stated fails: the [DBAPInstance] constructor accepts a vessel
    arriving after its deadline. *)
Lemma instance_accepts_late_arrival :
  exists inst,
    mk_instance 1 1 [1] [5] [3] [[PT 1]] [HOI 0 10] = inr inst /\
    at_ (latest_departure_times inst) 0 < at_ (arrival_times inst) 0.
Proof. eexists. split; [reflexivity | vm_compute; reflexivity]. Qed.

(** C3 (amended): the [DBAPInstance] constructor checks the array lengths
    only; [arrival <= deadline] is enforced by [parse_instance], whose
    every result satisfies it for every vessel, and [start <= end] is
    enforced by the [HalfOpenInterval] constructor, so it holds for every
    window, in particular in every parsed instance. *)
Theorem instance_invariant_sites :
  (forall n m weights arrivals latest proc windows,
     zlen weights = n -> zlen arrivals = n -> zlen latest = n -> zlen proc = n ->
     Forall (fun row => zlen row = m) proc -> zlen windows = m ->
     exists inst, mk_instance n m weights arrivals latest proc windows = inr inst) /\
  (forall s e x, mk_interval s e = inr x -> start_inclusive x <= end_exclusive x) /\
  (forall toks thr inst, parse_instance toks thr = inr inst ->
     length (arrival_times inst) = length (latest_departure_times inst) /\
     (forall v, (v < length (arrival_times inst))%nat ->
        at_ (arrival_times inst) v <= at_ (latest_departure_times inst) v) /\
     (forall b, (b < length (berth_opening_times inst))%nat ->
        start_inclusive (get_berth_interval inst b) <= end_exclusive (get_berth_interval inst b))).
Proof.
  split; [|split; [exact mk_interval_ordered|]].
  - intros n m weights arrivals latest proc windows Hw Ha Hl Hp Hrows Hwin.
    unfold mk_instance. rewrite Hw, Ha, Hl, Hp, Hwin, !Z.eqb_refl. simpl.
    replace (existsb _ proc) with false; [eauto|].
    symmetry. apply not_true_iff_false. intros Hex.
    apply existsb_exists in Hex as [row [Hin Hr]].
    rewrite List.Forall_forall in Hrows. rewrite Hrows, Z.eqb_refl in Hr by exact Hin.
    discriminate.
  - intros toks thr inst Hparse. unfold parse_instance in Hparse.
    destruct (parse_body thr toks) as [e|[inst' r]] eqn:E; [discriminate|].
    injection Hparse as ->. unfold parse_body in E.
    apply pbind_inv in E as [n [t1 [_ E]]].
    apply pbind_inv in E as [m [t2 [_ E]]].
    destruct (n <=? 0); [discriminate|]. destruct (m <=? 0); [discriminate|].
    apply pbind_inv in E as [arrivals [t3 [_ E]]].
    apply pbind_inv in E as [openings [t4 [_ E]]].
    apply pbind_inv in E as [proc [t5 [_ E]]].
    apply pbind_inv in E as [endings [t6 [_ E]]].
    destruct (existsb _ (seq 0 (Z.to_nat m))) eqn:Ew; [discriminate|].
    apply pbind_inv in E as [latest [t7 [_ E]]].
    destruct (existsb _ (seq 0 (Z.to_nat n))) eqn:Ea; [discriminate|].
    apply pbind_inv in E as [intervals [t8 [Hint E]]].
    apply lift_inv in Hint as [intervals' [Hmap Heq]]. injection Heq as <- _.
    apply lift_inv in E as [inst'' [Hmk Heq]]. injection Heq as <- _.
    apply mk_instance_inv in Hmk as [-> [_ [Hla [Hll _]]]]. simpl.
    unfold zlen in Hla, Hll.
    split; [lia|]. split.
    + intros v Hv. pose proof (ParseProps.existsb_false_forall _ _ Ea v) as Hv'.
      simpl in Hv'. apply Z.ltb_ge, Hv'. apply in_seq. lia.
    + intros b Hb. unfold get_berth_interval. simpl.
      apply ParseProps.at_In in Hb.
      destruct (map_result_inv _ _ _ Hmap _ Hb) as [i [_ Hi]].
      exact (mk_interval_ordered _ _ _ Hi).
Qed.

Lemma instance_invariant_sites_witness :
  (exists inst, mk_instance 1 1 [1] [5] [3] [[PT 1]] [HOI 0 10] = inr inst) /\
  start_inclusive (HOI 0 10) <= end_exclusive (HOI 0 10) /\
  at_ [0] 0 <= at_ [100] 0.
Proof.
  destruct instance_invariant_sites as [Hmk [Hhoi Hparse]].
  split; [apply Hmk; first [reflexivity | repeat constructor]|].
  split; [apply (Hhoi 0 10); reflexivity|].
  destruct (Hparse (map Some [1; 1; 0; 0; 10; 99; 100]) 99999
              {| num_vessels := 1; num_berths := 1; vessel_weights := [1];
                 arrival_times := [0]; latest_departure_times := [100];
                 processing_times := [[PT 10]]; berth_opening_times := [HOI 0 100] |}
              eq_refl) as [_ [Hv _]].
  apply (Hv 0%nat). simpl. lia.
Defined.

End InstanceProps.

Module SolveProps.

Lemma Forall2_at {A B} `{Inhabited A} `{Inhabited B} (R : A -> B -> Prop) l1 l2 (i : nat) :
  Forall2 R l1 l2 -> (i < length l1)%nat -> R (at_ l1 i) (at_ l2 i).
Proof.
  intros HF. revert i. induction HF as [|x y l1 l2 Hxy HF IH]; intros i Hi; simpl in Hi; [lia|].
  destruct i as [|i]; [exact Hxy|]. apply (IH i). lia.
Qed.

Lemma sum_max_durations_spec (rows : list (list ProcessingTime)) (acc s : Z) :
  sum_max_durations rows acc = Some s ->
  exists durs, Forall2 (fun row d => py_max (valid_pts row) = inr d) rows durs /\
               s = acc + zsum durs.
Proof.
  revert acc. induction rows as [|row rows IH]; intros acc H; simpl in H.
  - injection H as <-. exists []. split; [constructor | simpl; lia].
  - destruct (valid_pts row) as [|x xs] eqn:Ev; [discriminate|].
    destruct (IH _ H) as [durs [HF ->]].
    exists (fold_left Z.max xs x :: durs). split.
    + constructor; [rewrite Ev; reflexivity | exact HF].
    + simpl. lia.
Qed.

Lemma sum_max_durations_none (rows : list (list ProcessingTime)) (row : list ProcessingTime) acc :
  In row rows -> valid_pts row = [] -> sum_max_durations rows acc = None.
Proof.
  revert acc. induction rows as [|r rows IH]; intros acc Hin Hv; [destruct Hin|].
  simpl. destruct Hin as [-> | Hin]; [rewrite Hv; reflexivity|].
  destruct (valid_pts r); [reflexivity|]. apply IH; assumption.
Qed.

Lemma valid_pts_nil (row : list ProcessingTime) :
  (forall b, (b < length row)%nat -> is_valid (at_ row b) = false) -> valid_pts row = [].
Proof.
  unfold valid_pts. induction row as [|pt row IH]; intros H; [reflexivity|].
  assert (Hpt : is_valid pt = false) by exact (H 0%nat ltac:(simpl; lia)).
  simpl. rewrite Hpt. apply IH.
  intros b Hb. apply (H (S b)). simpl. lia.
Qed.

Lemma encode_vessels_spec config g inst vs vvs :
  encode_vessels config g inst vs = Some vvs ->
  Forall2 (fun v vv => encode_vessel config g inst v = Some vv) vs vvs.
Proof.
  revert vvs. induction vs as [|v vs IH]; intros vvs H; simpl in H.
  - injection H as <-. constructor.
  - destruct (encode_vessel config g inst v) as [vv|] eqn:E; [|discriminate].
    destruct (encode_vessels config g inst vs) as [vvs'|]; [|discriminate].
    injection H as <-. constructor; [exact E | apply IH; reflexivity].
Qed.

Lemma encode_vessel_domains config g inst v vv :
  encode_vessel config g inst v = Some vv ->
  vv_start vv = {| lb := at_ (arrival_times inst) v; ub := at_ (latest_departure_times inst) v |} /\
  vv_berth vv = {| lb := 0; ub := num_berths inst - 1 |}.
Proof.
  unfold encode_vessel. destruct (omap _ _); [discriminate|].
  intros H. injection H as <-. split; reflexivity.
Qed.

Lemma zlen_pos_cons {A} (l : list A) (n : Z) :
  zlen l = n -> n <> 0 -> exists x r, l = x :: r.
Proof. unfold zlen. destruct l as [|x r]; simpl; [lia | eauto]. Qed.

(** C2: in the model handed to the engine, each vessel's start variable
    ranges over [[arrival, min(horizon, deadline)]], which is
    [[arrival, deadline]] because the horizon
    [max(max arrival + sum of the per-vessel maximal valid durations,
    max deadline)] is at least every deadline; the berth variable ranges
    over [[0, M-1]]. *)
Theorem encode_variable_domains config inst n m weights arrivals latest proc windows h model :
  mk_instance n m weights arrivals latest proc windows = inr inst ->
  solve_encode config inst = Encoded h model ->
  length (model_vessels model) = Z.to_nat n /\
  (exists amax dmax durs,
     py_max arrivals = inr amax /\ py_max latest = inr dmax /\
     length durs = Z.to_nat n /\
     (forall v, (v < Z.to_nat n)%nat -> py_max (valid_pts (at_ proc v)) = inr (at_ durs v)) /\
     h = Z.max (amax + zsum durs) dmax) /\
  (forall v, (v < Z.to_nat n)%nat ->
     vv_start (at_ (model_vessels model) v) = {| lb := at_ arrivals v; ub := Z.min h (at_ latest v) |} /\
     Z.min h (at_ latest v) = at_ latest v /\
     vv_berth (at_ (model_vessels model) v) = {| lb := 0; ub := m - 1 |}).
Proof.
  intros Hmk Henc.
  apply InstanceProps.mk_instance_inv in Hmk as [-> [Hw [Ha [Hl [Hp [Hrows Hwin]]]]]].
  unfold solve_encode in Henc. cbn [num_vessels] in Henc.
  destruct (Z.eqb_spec n 0) as [|Hn0]; [discriminate|].
  destruct (compute_horizon _) as [h'|] eqn:Eh; [|discriminate].
  destruct (encode_vessels _ _ _ _) as [vvs|] eqn:Ev; [|discriminate].
  injection Henc as <- <-. cbn [model_vessels].
  pose proof (encode_vessels_spec _ _ _ _ _ Ev) as HF.
  assert (Hlen : length vvs = Z.to_nat n).
  { apply Forall2_length in HF. rewrite length_seq in HF. lia. }
  unfold compute_horizon in Eh. cbn [num_vessels arrival_times latest_departure_times processing_times] in Eh.
  destruct (sum_max_durations _ 0) as [s|] eqn:Es; [|discriminate].
  destruct (zlen_pos_cons arrivals n Ha Hn0) as [a0 [ar ->]].
  destruct (zlen_pos_cons latest n Hl Hn0) as [l0 [lr ->]].
  injection Eh as <-.
  destruct (sum_max_durations_spec _ _ _ Es) as [durs [HD ->]].
  assert (Hdlen : length durs = Z.to_nat n).
  { apply Forall2_length in HD. rewrite length_map, length_seq in HD. lia. }
  split; [exact Hlen|]. split.
  - exists (fold_left Z.max ar a0), (fold_left Z.max lr l0), durs.
    split; [reflexivity|]. split; [reflexivity|]. split; [exact Hdlen|]. split; [|f_equal; lia].
    intros v Hv. pose proof (Forall2_at _ _ _ v HD) as Hat.
    rewrite length_map, length_seq in Hat. specialize (Hat Hv).
    rewrite ParseProps.at_map, ParseProps.at_seq in Hat by (rewrite ?length_seq; lia).
    exact Hat.
  - intros v Hv.
    pose proof (Forall2_at _ _ _ v HF) as Hat. rewrite length_seq in Hat. specialize (Hat Hv).
    rewrite ParseProps.at_seq in Hat by exact Hv. cbn in Hat.
    destruct (encode_vessel_domains _ _ _ _ _ Hat) as [Hs Hb].
    assert (Hdl : at_ (l0 :: lr) v <= Z.max (fold_left Z.max ar a0 + zsum durs) (fold_left Z.max lr l0)).
    { destruct (SolutionProps.fold_max_spec lr l0) as [_ Hall].
      rewrite List.Forall_forall in Hall.
      pose proof (Hall (at_ (l0 :: lr) v) (ParseProps.at_In (l0 :: lr) v ltac:(unfold zlen in Hl; lia))).
      lia. }
    rewrite Hs, Hb. cbn. split; [f_equal; lia | split; [lia | reflexivity]].
Qed.

Lemma encode_variable_domains_witness :
  exists h model, solve_encode default_config scenario_b_instance = Encoded h model /\
    vv_start (at_ (model_vessels model) 1) = {| lb := 5; ub := Z.min h 100 |}.
Proof.
  destruct (solve_encode default_config scenario_b_instance) as [r | h model] eqn:E;
    [vm_compute in E; discriminate|].
  exists h, model. split; [reflexivity|].
  apply (proj2 (proj2 (encode_variable_domains default_config scenario_b_instance 3 2
           [1; 1; 1] [0; 5; 10] [100; 100; 100]
           [[PT 10; PT 12]; [PT 8; INVALID_PROCESSING_TIME]; [PT 6; PT 5]]
           [HOI 0 50; HOI 5 60] h model eq_refl E)) 1%nat ltac:(simpl; lia)).
Defined.

(** C6: when some vessel has no valid processing time on any berth,
    [solve] returns [None] before any model reaches the engine, whatever
    the engine does. *)
Theorem solve_no_eligible_berth config inst n m weights arrivals latest proc windows (v : nat) :
  mk_instance n m weights arrivals latest proc windows = inr inst ->
  (v < Z.to_nat n)%nat ->
  (forall b, (b < Z.to_nat m)%nat -> is_invalid (get_processing_time inst v b) = true) ->
  solve_encode config inst = EarlyReturn None /\
  forall engine, solve engine config inst = inr None.
Proof.
  intros Hmk Hv Hinv.
  apply InstanceProps.mk_instance_inv in Hmk as [-> [Hw [Ha [Hl [Hp [Hrows Hwin]]]]]].
  assert (Henc : solve_encode config
     {| num_vessels := n; num_berths := m; vessel_weights := weights;
        arrival_times := arrivals; latest_departure_times := latest;
        processing_times := proc; berth_opening_times := windows |} = EarlyReturn None).
  { unfold solve_encode. cbn [num_vessels].
    destruct (Z.eqb_spec n 0); [lia|].
    unfold compute_horizon. cbn [num_vessels processing_times].
    rewrite (sum_max_durations_none _ (at_ proc v)); [reflexivity| |].
    - apply in_map. apply in_seq. lia.
    - apply valid_pts_nil. intros b Hb.
      assert (Hrow : length (at_ proc v) = Z.to_nat m).
      { rewrite List.Forall_forall in Hrows.
        rewrite <- (Hrows (at_ proc v)) by (apply ParseProps.at_In; unfold zlen in Hp; lia).
        unfold zlen. lia. }
      specialize (Hinv b ltac:(lia)). rewrite PTProps.is_invalid_negb in Hinv.
      apply negb_true_iff in Hinv. exact Hinv. }
  split; [exact Henc|]. intros engine. unfold solve. rewrite Henc. reflexivity.
Qed.

Lemma solve_no_eligible_berth_witness :
  solve_encode default_config scenario_c_instance = EarlyReturn None /\
  solve (fun _ => {| status := OPTIMAL; value_berth := fun _ => 0; value_start := fun _ => 0 |})
    default_config scenario_c_instance = inr None.
Proof.
  destruct (solve_no_eligible_berth default_config scenario_c_instance 2 2 [1; 1] [0; 3] [50; 50]
              [[PT 4; PT 6]; [INVALID_PROCESSING_TIME; PT (-7)]] [HOI 0 50; HOI 0 50] 1)
    as [H1 H2]; [reflexivity | simpl; lia | |].
  - intros b Hb. destruct b as [|[|b]]; [reflexivity | reflexivity | simpl in Hb; lia].
  - split; [exact H1 | apply H2].
Defined.

End SolveProps.

Module GreedyProps.

Lemma at_insert_eq {A} `{Inhabited A} (l : list A) (i : nat) (x : A) :
  (i < length l)%nat -> at_ (<[i := x]> l) i = x.
Proof. apply list_lookup_total_insert_eq. Qed.

Lemma at_insert_ne {A} `{Inhabited A} (l : list A) (i j : nat) (x : A) :
  i <> j -> at_ (<[i := x]> l) j = at_ l j.
Proof. apply list_lookup_total_insert_ne. Qed.

Section Greedy.
Variable inst : DBAPInstance.

Local Abbreviation N := (Z.to_nat (num_vessels inst)).
Local Abbreviation M := (Z.to_nat (num_berths inst)).

(** What the berth scan of vessel [v] has found so far: nothing, or a
    berth [b] whose candidate interval fits the berth window and the
    deadline. *)
Definition scan_ok (free : list Z) (v : nat) (arrival deadline : Z) (bst : best) : Prop :=
  (best_b_id bst = -1 /\ best_finish bst = None) \/
  (exists b, (b < M)%nat /\ best_b_id bst = Z.of_nat b /\
     is_valid (get_processing_time inst v b) = true /\
     best_start bst = Z.max (Z.max arrival (at_ free b)) (hoi_start (get_berth_interval inst b)) /\
     best_finish bst = Some (best_start bst + time (get_processing_time inst v b)) /\
     best_start bst + time (get_processing_time inst v b) <= hoi_finish (get_berth_interval inst b) /\
     best_start bst + time (get_processing_time inst v b) <= deadline).

Lemma berth_step_ok free v arrival deadline acc (b : nat) :
  (b < M)%nat -> scan_ok free v arrival deadline acc ->
  scan_ok free v arrival deadline (berth_step inst free v arrival deadline acc b).
Proof.
  intros Hb Hacc. unfold berth_step.
  destruct (is_invalid (get_processing_time inst v b)) eqn:Ei; [exact Hacc|].
  cbv zeta.
  destruct (_ <=? _) eqn:E1; [|exact Hacc]. destruct (_ <=? deadline) eqn:E2; [|exact Hacc].
  cbn [andb]. destruct (lt_best _ _); [|exact Hacc].
  right. exists b. apply Z.leb_le in E1, E2.
  rewrite PTProps.is_invalid_negb in Ei. apply negb_false_iff in Ei.
  cbn [best_b_id best_start best_finish].
  repeat split; assumption.
Qed.

Lemma scan_fold_ok free v arrival deadline (l : list nat) acc :
  (forall b, In b l -> (b < M)%nat) -> scan_ok free v arrival deadline acc ->
  scan_ok free v arrival deadline (fold_left (berth_step inst free v arrival deadline) l acc).
Proof.
  revert acc. induction l as [|b l IH]; intros acc Hl Hacc; simpl; [exact Hacc|].
  apply IH; [intros; apply Hl; right; assumption|].
  apply berth_step_ok; [apply Hl; left; reflexivity | exact Hacc].
Qed.

(** Vessel [v] has been placed: on a berth in range, no earlier than its
    arrival, ending within the berth's window, its deadline and the
    berth's free-time cursor. *)
Definition placed (st : greedy_state) (v : nat) : Prop :=
  let b := at_ (v_berths st) v in
  0 <= b < Z.of_nat M /\
  at_ (arrival_times inst) v <= at_ (v_starts st) v /\
  at_ (v_starts st) v <= at_ (v_ends st) v /\
  at_ (v_ends st) v <= hoi_finish (get_berth_interval inst (Z.to_nat b)) /\
  at_ (v_ends st) v <= at_ (latest_departure_times inst) v /\
  at_ (v_ends st) v <= at_ (berth_free_times st) (Z.to_nat b).

(** The loop invariant, over the set [D] of vessels processed so far. *)
Definition ginv (D : nat -> Prop) (st : greedy_state) : Prop :=
  length (berth_free_times st) = M /\ length (v_berths st) = N /\
  length (v_starts st) = N /\ length (v_ends st) = N /\
  (forall v, D v -> placed st v) /\
  (forall v1 v2, D v1 -> D v2 -> v1 <> v2 -> at_ (v_berths st) v1 = at_ (v_berths st) v2 ->
     at_ (v_ends st) v1 <= at_ (v_starts st) v2 \/ at_ (v_ends st) v2 <= at_ (v_starts st) v1).

Lemma ginv_ext (D D' : nat -> Prop) st : (forall w, D' w -> D w) -> ginv D st -> ginv D' st.
Proof.
  intros HD (H1 & H2 & H3 & H4 & H5 & H6).
  split; [exact H1|]. split; [exact H2|]. split; [exact H3|]. split; [exact H4|].
  split; [intros v Hv; apply H5, HD, Hv|].
  intros v1 v2 Hv1 Hv2. apply H6; apply HD; assumption.
Qed.

Lemma vessel_step_ok D st (v : nat) st' :
  ginv D st -> (v < N)%nat -> ~ D v -> vessel_step inst st v = Some st' ->
  ginv (fun w => w = v \/ D w) st'.
Proof.
  intros (Hfl & Hbl & Hsl & Hel & Hpl & Hdis) Hv HDv Hstep.
  unfold vessel_step in Hstep.
  set (bst := fold_left _ _ best_init) in Hstep.
  assert (Hscan : scan_ok (berth_free_times st) v (at_ (arrival_times inst) v)
                    (at_ (latest_departure_times inst) v) bst).
  { apply scan_fold_ok; [intros b Hb; apply in_seq in Hb; lia | left; split; reflexivity]. }
  destruct (Z.eqb_spec (best_b_id bst) (-1)) as [|Hne]; [discriminate|].
  injection Hstep as <-.
  destruct Hscan as [[Hid _] | (b & HbM & Hbid & Hvalid & Hstart & Hfin & Hwin & Hdl)];
    [contradiction|].
  rewrite Hbid, Hfin. unfold ginv, placed.
  cbn [int_of_best berth_free_times v_berths v_starts v_ends].
  rewrite Nat2Z.id.
  set (s := best_start bst) in *.
  set (e := s + time (get_processing_time inst v b)).
  assert (Hdur : 0 <= time (get_processing_time inst v b)) by (unfold is_valid in Hvalid; lia).
  assert (Hfree : at_ (berth_free_times st) b <= s) by lia.
  assert (Harr : at_ (arrival_times inst) v <= s) by lia.
  assert (Hvb : (v < length (v_berths st))%nat) by lia.
  assert (Hvs : (v < length (v_starts st))%nat) by lia.
  assert (Hve : (v < length (v_ends st))%nat) by lia.
  assert (Hbf : (b < length (berth_free_times st))%nat) by lia.
  split; [rewrite length_insert; exact Hfl|].
  split; [rewrite length_insert; exact Hbl|].
  split; [rewrite length_insert; exact Hsl|].
  split; [rewrite length_insert; exact Hel|].
  split.
  - intros w Hw. destruct (decide (w = v)) as [->|Hwv].
    + rewrite !at_insert_eq by assumption. rewrite Nat2Z.id, at_insert_eq by assumption.
      unfold e in *. repeat split; lia.
    + destruct Hw as [->|Hw]; [contradiction|].
      rewrite !at_insert_ne by congruence.
      destruct (Hpl w Hw) as (Hb0 & Ha0 & Hse & Hwf & Hd0 & Hfr).
      repeat split; try lia.
      destruct (decide (Z.to_nat (at_ (v_berths st) w) = b)) as [Heq|Hneq].
      * rewrite Heq, at_insert_eq by assumption. rewrite Heq in Hfr. unfold e. lia.
      * rewrite at_insert_ne by congruence. exact Hfr.
  - intros w1 w2 Hw1 Hw2 H12 Hsame.
    destruct (decide (w1 = v)) as [->|Hw1v]; [|destruct (decide (w2 = v)) as [->|Hw2v]].
    + destruct Hw2 as [->|Hw2]; [contradiction|].
      rewrite at_insert_eq in Hsame by lia. rewrite at_insert_ne in Hsame by congruence.
      right. rewrite at_insert_eq by lia. rewrite at_insert_ne by congruence.
      destruct (Hpl w2 Hw2) as (_ & _ & _ & _ & _ & Hfr).
      rewrite <- Hsame, Nat2Z.id in Hfr. lia.
    + destruct Hw1 as [->|Hw1]; [contradiction|].
      rewrite at_insert_eq in Hsame by lia. rewrite at_insert_ne in Hsame by congruence.
      left. rewrite at_insert_eq by lia. rewrite at_insert_ne by congruence.
      destruct (Hpl w1 Hw1) as (_ & _ & _ & _ & _ & Hfr).
      rewrite Hsame, Nat2Z.id in Hfr. lia.
    + destruct Hw1 as [->|Hw1]; [contradiction|]. destruct Hw2 as [->|Hw2]; [contradiction|].
      rewrite !at_insert_ne in Hsame by congruence.
      rewrite !at_insert_ne by congruence.
      apply Hdis; assumption.
Qed.

Lemma vessel_loop_ok (order : list nat) D st st' :
  ginv D st -> List.NoDup order -> (forall v, In v order -> (v < N)%nat /\ ~ D v) ->
  vessel_loop inst order st = Some st' ->
  ginv (fun w => In w order \/ D w) st'.
Proof.
  revert D st. induction order as [|v order IH]; intros D st Hinv Hnd Hord Hloop; simpl in Hloop.
  - injection Hloop as <-. apply (ginv_ext D); [|exact Hinv].
    intros w [[] | Hw]; exact Hw.
  - destruct (vessel_step inst st v) as [st1|] eqn:Estep; [|discriminate].
    inversion Hnd as [|? ? Hnotin Hnd']; subst.
    destruct (Hord v (or_introl eq_refl)) as [Hv HDv].
    pose proof (vessel_step_ok D st v st1 Hinv Hv HDv Estep) as Hinv1.
    pose proof (IH (fun w => w = v \/ D w) st1 Hinv1 Hnd') as IH'.
    apply (ginv_ext (fun w => In w order \/ (w = v \/ D w))).
    + intros w [[-> | Hw] | Hw]; [right; left | left | right; right]; auto.
    + apply IH'; [|exact Hloop].
      intros w Hw. destruct (Hord w (or_intror Hw)) as [Hw1 Hw2].
      split; [exact Hw1|]. intros [-> | HD]; [contradiction | exact (Hw2 HD)].
Qed.

Lemma insert_sorted_perm (v : nat) (l : list nat) :
  Permutation (insert_sorted inst v l) (v :: l).
Proof.
  induction l as [|w l IH]; simpl; [reflexivity|].
  destruct (key_lt inst v w); [reflexivity|].
  transitivity (w :: v :: l); [constructor; exact IH | constructor].
Qed.

Lemma sorted_fold_perm (l acc : list nat) :
  Permutation (fold_left (fun acc v => insert_sorted inst v acc) l acc) (l ++ acc).
Proof.
  revert acc. induction l as [|v l IH]; intros acc; simpl; [reflexivity|].
  rewrite IH, insert_sorted_perm. symmetry. apply Permutation_middle.
Qed.

Lemma sorted_vessels_perm : Permutation (sorted_vessels inst) (seq 0 N).
Proof. unfold sorted_vessels. rewrite sorted_fold_perm, app_nil_r. reflexivity. Qed.

End Greedy.

Lemma mk_solution_fields berths starts ends weights arrivals sol :
  mk_solution berths starts ends weights arrivals = inr sol ->
  vessel_berths sol = berths /\ vessel_start_times sol = starts /\ vessel_end_times sol = ends.
Proof.
  unfold mk_solution.
  repeat match goal with |- context [if ?c then _ else _] => destruct c; [discriminate|] end.
  destruct (for_each _ _ _); [discriminate|].
  intros H. injection H as <-. repeat split.
Qed.

(** C1: whenever the greedy heuristic returns a solution, it is feasible:
    every vessel starts no earlier than its arrival on a berth in range and
    ends within that berth's window and its deadline, and two distinct
    vessels on the same berth have non-overlapping [[start, end)]
    intervals. *)
Theorem greedy_solution_feasible (inst : DBAPInstance) (sol : Solution) :
  greedy_heuristic inst = Some sol ->
  let N := Z.to_nat (num_vessels inst) in
  let berth v := at_ (vessel_berths sol) v in
  let start v := at_ (vessel_start_times sol) v in
  let end_ v := at_ (vessel_end_times sol) v in
  length (vessel_berths sol) = N /\
  (forall v, (v < N)%nat ->
     0 <= berth v < num_berths inst /\
     at_ (arrival_times inst) v <= start v /\ start v <= end_ v /\
     end_ v <= hoi_finish (get_berth_interval inst (Z.to_nat (berth v))) /\
     end_ v <= at_ (latest_departure_times inst) v) /\
  (forall v1 v2, (v1 < N)%nat -> (v2 < N)%nat -> v1 <> v2 -> berth v1 = berth v2 ->
     overlaps (HOI (start v1) (end_ v1)) (HOI (start v2) (end_ v2)) = false).
Proof.
  intros Hg N berth start end_.
  unfold greedy_heuristic in Hg.
  destruct (Z.eqb_spec (num_vessels inst) 0) as [H0|H0].
  { injection Hg as <-. subst N. rewrite H0. simpl.
    split; [reflexivity|]. split; intros; lia. }
  destruct (vessel_loop _ _ _) as [st|] eqn:Eloop; [|discriminate].
  unfold solution_or_none in Hg.
  destruct (mk_solution _ _ _ _ _) as [err|sol'] eqn:Emk; [discriminate|].
  injection Hg as <-.
  destruct (mk_solution_fields _ _ _ _ _ _ Emk) as (Hb & Hs & He).
  assert (Hperm := sorted_vessels_perm inst).
  assert (Hinv0 : ginv inst (fun _ => False)
            {| berth_free_times :=
                 map (fun b => hoi_start (get_berth_interval inst b))
                     (seq 0 (Z.to_nat (num_berths inst)));
               v_berths := repeat 0 N; v_starts := repeat 0 N; v_ends := repeat 0 N |}).
  { unfold ginv; cbn [berth_free_times v_berths v_starts v_ends].
    rewrite List.length_map, length_seq, !repeat_length.
    split; [reflexivity|]. split; [reflexivity|]. split; [reflexivity|].
    split; [reflexivity|]. split; [intros _ []|]. intros v1 v2 []. }
  assert (Hinv := vessel_loop_ok inst (sorted_vessels inst) (fun _ => False) _ st Hinv0
                    (Permutation_NoDup (symmetry Hperm) (List.seq_NoDup N 0))
                    (fun v Hv => conj (proj2 (proj1 (in_seq N 0 v)
                                          (Permutation_in _ Hperm Hv))) (fun f => f))
                    Eloop).
  destruct Hinv as (_ & Hbl & _ & _ & Hpl & Hdis).
  assert (Hin : forall v, (v < N)%nat -> In v (sorted_vessels inst) \/ False).
  { intros v Hv. left. apply (Permutation_in _ (symmetry Hperm)), in_seq. lia. }
  subst berth start end_. rewrite Hb, Hs, He.
  split; [exact Hbl|]. split.
  - intros v Hv. destruct (Hpl v (Hin v Hv)) as (Hr & Ha & Hse & Hf & Hd & _).
    split; [|split; [exact Ha|split; [exact Hse|split; [exact Hf|exact Hd]]]].
    destruct Hr as [Hr1 Hr2]. split; [exact Hr1|].
    destruct (Z.le_gt_cases 0 (num_berths inst)); [rewrite Z2Nat.id in Hr2 by lia; exact Hr2|].
    rewrite (Z2Nat.nonpos (num_berths inst)) in Hr2 by lia. simpl in Hr2. lia.
  - intros v1 v2 Hv1 Hv2 Hne Hsame. unfold overlaps; cbn [start_inclusive end_exclusive].
    destruct (Hdis v1 v2 (Hin v1 Hv1) (Hin v2 Hv2) Hne Hsame) as [Hlt|Hlt].
    + rewrite (proj2 (Z.ltb_ge _ _) Hlt). apply andb_false_r.
    + rewrite (proj2 (Z.ltb_ge _ _) Hlt). reflexivity.
Qed.

(** On scenario B the greedy heuristic returns [scenario_b_greedy_solution],
    so the feasibility statement applies to it. *)
Lemma greedy_solution_feasible_witness :
  greedy_heuristic scenario_b_instance = Some scenario_b_greedy_solution /\
  length (vessel_berths scenario_b_greedy_solution) = Z.to_nat (num_vessels scenario_b_instance).
Proof.
  split; [vm_compute; reflexivity|].
  exact (proj1 (greedy_solution_feasible scenario_b_instance scenario_b_greedy_solution
                  ltac:(vm_compute; reflexivity))).
Defined.


End GreedyProps.

(* ============================================================ *)
(** * Further properties of the code *)
(* ============================================================ *)

Module PTExtra.

Lemma valid_PT (z : Z) : is_valid (PT z) = (0 <=? z).
Proof. reflexivity. Qed.

(** [+] and [*] on two [ProcessingTime]s are commutative and associative,
    invalid operands included: [_combine] maps every invalid combination to
    the same sentinel [ProcessingTime(-1)]. *)
Theorem pt_add_mul_comm_assoc (a b c : ProcessingTime) :
  pt_add a (OpPT b) = pt_add b (OpPT a) /\
  pt_add (pt_add a (OpPT b)) (OpPT c) = pt_add a (OpPT (pt_add b (OpPT c))) /\
  pt_mul a (OpPT b) = pt_mul b (OpPT a) /\
  pt_mul (pt_mul a (OpPT b)) (OpPT c) = pt_mul a (OpPT (pt_mul b (OpPT c))).
Proof.
  destruct a as [x], b as [y], c as [z].
  unfold pt_add, pt_mul, _combine, as_pt. rewrite !valid_PT. cbn [time].
  destruct (Z.leb_spec 0 x), (Z.leb_spec 0 y), (Z.leb_spec 0 z); cbn [andb];
    unfold INVALID_PROCESSING_TIME; rewrite ?valid_PT; cbn [time];
    repeat match goal with
    | |- context [0 <=? ?t] => let E := fresh in destruct (Z.leb_spec 0 t) as [E|E]
    end; cbn [andb]; rewrite ?valid_PT; cbn [time]; 
    repeat match goal with
    | |- context [0 <=? ?t] => let E := fresh in destruct (Z.leb_spec 0 t) as [E|E]
    end; cbn [andb];
    repeat split; try reflexivity; try (f_equal; lia); try nia.
Qed.

(** Adding the integer 0 or multiplying by the integer 1 returns a valid
    time unchanged and turns every invalid one into the sentinel
    [INVALID_PROCESSING_TIME]. *)
Theorem pt_neutral_normalizes (a : ProcessingTime) :
  pt_add a (OpInt 0) = (if is_valid a then a else INVALID_PROCESSING_TIME) /\
  pt_mul a (OpInt 1) = (if is_valid a then a else INVALID_PROCESSING_TIME).
Proof.
  destruct a as [x]. unfold pt_add, pt_mul, _combine, as_pt.
  rewrite !valid_PT. cbn [time]. destruct (0 <=? x); simpl; [|split; reflexivity].
  rewrite Z.add_0_r, Z.mul_1_r. split; reflexivity.
Qed.

(** [a // d] is valid exactly when both operands are valid and [d] is not
    zero; it is then the floor quotient [r] with
    [d * r <= a < d * (r + 1)], and [r <= a]. *)
Theorem pt_floordiv_spec (a d : ProcessingTime) :
  let r := pt_floordiv a (OpPT d) in
  (is_valid r = true <-> is_valid a = true /\ is_valid d = true /\ time d <> 0) /\
  (is_valid r = true ->
     time d * time r <= time a < time d * (time r + 1) /\ time r <= time a).
Proof.
  destruct a as [x], d as [y]. cbv zeta. unfold pt_floordiv, as_pt. rewrite !valid_PT.
  cbn [time].
  destruct (Z.leb_spec 0 x), (Z.leb_spec 0 y), (Z.eqb_spec y 0); cbn [andb negb];
    unfold INVALID_PROCESSING_TIME; rewrite ?valid_PT; cbn [time];
    try (split; [split; [intros Hf; discriminate Hf | intros (H1 & H2 & H3); try discriminate; congruence]
                | intros Hf; discriminate Hf]).
  pose proof (Z.div_pos x y ltac:(lia) ltac:(lia)).
  pose proof (Z.mod_pos_bound x y ltac:(lia)). pose proof (Z.div_mod x y ltac:(lia)).
  rewrite (proj2 (Z.leb_le 0 (x / y))) by lia.
  split; [split; [intros _; split; [reflexivity|split; [reflexivity|lia]] | intros _; reflexivity]|].
  intros _. split; [split; lia|]. apply Z.div_le_upper_bound; nia.
Qed.

End PTExtra.

Module IntervalExtra.

(** [overlaps] and [adjacent] are symmetric, and intervals that are
    adjacent never overlap. *)
Theorem adjacent_not_overlapping (x y : HalfOpenInterval) :
  overlaps x y = overlaps y x /\ adjacent x y = adjacent y x /\
  (adjacent x y = true -> overlaps x y = false).
Proof.
  destruct x as [s1 e1], y as [s2 e2]. unfold overlaps, adjacent; cbn [start_inclusive end_exclusive].
  split; [apply andb_comm|]. split; [apply orb_comm|].
  intros H. apply orb_true_iff in H as [H|H]; apply Z.eqb_eq in H; subst.
  - rewrite Z.ltb_irrefl. apply andb_false_r.
  - rewrite Z.ltb_irrefl. reflexivity.
Qed.

(** On intervals accepted by the constructor, [intersection] never
    raises: it returns [None] exactly when the two intervals do not
    overlap, and otherwise an interval holding exactly the time points
    both intervals contain, non-empty when both intervals are. *)
Theorem intersection_spec (s1 e1 s2 e2 : Z) (x y : HalfOpenInterval) :
  mk_interval s1 e1 = inr x -> mk_interval s2 e2 = inr y ->
  (intersection x y = inr None <-> overlaps x y = false) /\
  (overlaps x y = true ->
     exists z, intersection x y = inr (Some z) /\
       (forall t, contains z t = contains x t && contains y t) /\
       (is_empty x = false -> is_empty y = false -> is_empty z = false)).
Proof.
  unfold mk_interval.
  destruct (Z.ltb_spec e1 s1); [discriminate|]. intros Hx. injection Hx as <-.
  destruct (Z.ltb_spec e2 s2); [discriminate|]. intros Hy. injection Hy as <-.
  unfold intersection, overlaps, mk_interval, is_empty, hoi_len, contains;
    cbn [start_inclusive end_exclusive].
  destruct (Z.ltb_spec s1 e2), (Z.ltb_spec s2 e1); cbn [andb].
  - rewrite (proj2 (Z.ltb_ge (Z.min e1 e2) (Z.max s1 s2))) by lia. split.
    + split; intros H'; discriminate H'.
    + intros _. eexists. split; [reflexivity|]. cbn [start_inclusive end_exclusive].
      split.
      * intros t. destruct (Z.leb_spec (Z.max s1 s2) t), (Z.ltb_spec t (Z.min e1 e2)),
          (Z.leb_spec s1 t), (Z.ltb_spec t e1), (Z.leb_spec s2 t), (Z.ltb_spec t e2);
          reflexivity || lia.
      * intros Hx Hy. apply Z.eqb_neq in Hx, Hy. apply Z.eqb_neq. lia.
  - split; [split; reflexivity | intros H'; discriminate H'].
  - split; [split; reflexivity | intros H'; discriminate H'].
  - split; [split; reflexivity | intros H'; discriminate H'].
Qed.

(** An interval accepted by the constructor has [len >= 0], and it is
    empty exactly when it contains no time point. *)
Theorem constructed_interval_empty_iff (s e : Z) (x : HalfOpenInterval) :
  mk_interval s e = inr x ->
  0 <= hoi_len x /\ (is_empty x = true <-> forall t, contains x t = false).
Proof.
  unfold mk_interval. destruct (Z.ltb_spec e s); [discriminate|].
  intros H'. injection H' as <-. unfold is_empty, hoi_len, contains; cbn.
  split; [lia|]. split.
  - intros He t. apply Z.eqb_eq in He.
    destruct (Z.leb_spec s t), (Z.ltb_spec t e); reflexivity || lia.
  - intros Hc. specialize (Hc s). rewrite Z.leb_refl in Hc. cbn in Hc.
    apply Z.ltb_ge in Hc. apply Z.eqb_eq. lia.
Qed.

Lemma constructed_interval_empty_iff_witness :
  mk_interval 3 3 = inr (HOI 3 3) /\ 0 <= hoi_len (HOI 3 3) /\
  (is_empty (HOI 3 3) = true <-> forall t, contains (HOI 3 3) t = false).
Proof.
  split; [reflexivity|]. apply (constructed_interval_empty_iff 3 3). reflexivity.
Defined.

Lemma intersection_spec_witness :
  mk_interval 0 5 = inr (HOI 0 5) /\ mk_interval 3 8 = inr (HOI 3 8) /\
  overlaps (HOI 0 5) (HOI 3 8) = true /\
  exists z, intersection (HOI 0 5) (HOI 3 8) = inr (Some z) /\
    (forall t, contains z t = contains (HOI 0 5) t && contains (HOI 3 8) t) /\
    (is_empty (HOI 0 5) = false -> is_empty (HOI 3 8) = false -> is_empty z = false).
Proof.
  split; [reflexivity|]. split; [reflexivity|]. split; [reflexivity|].
  apply (proj2 (intersection_spec 0 5 3 8 (HOI 0 5) (HOI 3 8) eq_refl eq_refl)).
  reflexivity.
Defined.

End IntervalExtra.

Module SolutionExtra.

Lemma for_each_unit_ok (idx : list nat) (body : nat -> unit -> result unit) :
  (forall i, In i idx -> body i tt = inr tt) -> for_each idx body tt = inr tt.
Proof.
  induction idx as [|i idx IH]; intros H; simpl; [reflexivity|].
  rewrite (H i (or_introl eq_refl)). apply IH. intros j Hj. apply H. right. exact Hj.
Qed.

(** Every [Solution] the constructor accepts passes [validate()]: its
    four vectors have one entry per vessel and no vessel ends before it
    starts. *)
Theorem constructed_solution_validates (berths starts ends weights arrivals : list Z)
    (sol : Solution) :
  mk_solution berths starts ends weights arrivals = inr sol ->
  sol_num_vessels sol = length berths /\ validate sol = inr true.
Proof.
  intros Hmk. unfold mk_solution in Hmk.
  set (n := length berths) in Hmk.
  destruct (Nat.eqb_spec (length starts) n) as [Hs|]; [|discriminate].
  destruct (Nat.eqb_spec (length ends) n) as [He|]; [|discriminate].
  destruct (Nat.eqb_spec (length weights) n); [|discriminate].
  destruct (Nat.eqb_spec (length arrivals) n); [|discriminate].
  cbn [negb] in Hmk.
  assert (Hle : forall i, (i < n)%nat -> at_ starts i <= at_ ends i).
  { intros i Hi. destruct (Z.le_gt_cases (at_ starts i) (at_ ends i)) as [|Hgt]; [assumption|].
    destruct (SolutionProps.metric_loop_fails starts ends weights arrivals n i Hi ltac:(lia))
      as [err Hf].
    rewrite Hf in Hmk. discriminate. }
  rewrite (SolutionProps.metric_loop_ok starts ends weights arrivals n Hle) in Hmk.
  injection Hmk as <-. unfold sol_num_vessels, validate. cbn.
  split; [reflexivity|].
  fold n. rewrite Hs, He, !List.length_map, length_seq, Nat.eqb_refl. cbn [negb existsb orb].
  rewrite for_each_unit_ok; [reflexivity|].
  intros i Hi. apply in_seq in Hi.
  rewrite (proj2 (Z.ltb_ge _ _)) by (apply Hle; lia). reflexivity.
Qed.

(** An instance with no vessel: [greedy_heuristic] and [solve] return the
    empty solution, whatever the engine, with every total 0. *)
Theorem zero_vessels_empty_solution (inst : DBAPInstance) (config : SolverConfig)
    (engine : CpModel -> engine_answer) :
  num_vessels inst = 0 ->
  let empty := {| vessel_berths := []; vessel_start_times := []; vessel_end_times := [];
                  vessel_turnaround_times := []; vessel_weighted_turnaround_times := [];
                  total_turnaround_time := 0; total_weighted_turnaround_time := 0 |} in
  greedy_heuristic inst = Some empty /\ solve engine config inst = inr (Some empty).
Proof.
  intros H0. unfold greedy_heuristic, solve, solve_encode. rewrite H0. split; reflexivity.
Qed.

Lemma zero_vessels_empty_solution_witness :
  let inst := {| num_vessels := 0; num_berths := 1; vessel_weights := [];
                 arrival_times := []; latest_departure_times := [];
                 processing_times := []; berth_opening_times := [HOI 0 10] |} in
  num_vessels inst = 0 /\
  greedy_heuristic inst = Some {| vessel_berths := []; vessel_start_times := [];
    vessel_end_times := []; vessel_turnaround_times := [];
    vessel_weighted_turnaround_times := []; total_turnaround_time := 0;
    total_weighted_turnaround_time := 0 |}.
Proof.
  intros inst. split; [reflexivity|].
  exact (proj1 (zero_vessels_empty_solution inst default_config
                  (fun _ => {| status := INFEASIBLE; value_berth := fun _ => 0;
                               value_start := fun _ => 0 |}) eq_refl)).
Defined.

Lemma constructed_solution_validates_witness :
  mk_solution [0; 1] [0; 2] [3; 5] [1; 1] [0; 1] = inr
    {| vessel_berths := [0; 1]; vessel_start_times := [0; 2]; vessel_end_times := [3; 5];
       vessel_turnaround_times := [3; 4]; vessel_weighted_turnaround_times := [3; 4];
       total_turnaround_time := 7; total_weighted_turnaround_time := 7 |} /\
  validate {| vessel_berths := [0; 1]; vessel_start_times := [0; 2]; vessel_end_times := [3; 5];
       vessel_turnaround_times := [3; 4]; vessel_weighted_turnaround_times := [3; 4];
       total_turnaround_time := 7; total_weighted_turnaround_time := 7 |} = inr true.
Proof.
  split; [reflexivity|].
  exact (proj2 (constructed_solution_validates [0; 1] [0; 2] [3; 5] [1; 1] [0; 1] _ eq_refl)).
Defined.

End SolutionExtra.

Module ParseExtra.

(** A parser that succeeds reads a prefix [c] of its input and nothing
    after it. *)
Definition consumes {A} (p : parser A) : Prop :=
  forall ts x r, p ts = inr (x, r) ->
  exists c, ts = c ++ r /\ forall r', p (c ++ r') = inr (x, r').

(** Cut strictly inside the prefix it reads, the parser raises [EOFError];
    with a non-integer token at the cut, it raises [ValueError]. *)
Definition stops {A} (p : parser A) : Prop :=
  forall c x, (forall r, p (c ++ r) = inr (x, r)) ->
  forall c1 d, c = c1 ++ d -> d <> [] ->
  p c1 = inl EOFError /\ forall r, p (c1 ++ None :: r) = inl ValueError.

Definition good {A} (p : parser A) : Prop := consumes p /\ stops p.

Lemma app_self_nil {A} (c r : list A) : c ++ r = r -> c = [].
Proof. intros H. apply (f_equal (@length A)) in H. rewrite length_app in H.
  destruct c; [reflexivity | simpl in H; lia]. Qed.

Lemma good_read_int : good read_int.
Proof.
  split.
  - intros ts x r H. destruct ts as [|[z|] ts]; try discriminate.
    injection H as -> ->. exists [Some x]. split; [reflexivity|]. intros r'. reflexivity.
  - intros c x H c1 d Hc Hd. specialize (H []) as H0.
    destruct c as [|t c0]; [discriminate|].
    destruct t as [z|]; [|discriminate].
    assert (c0 = []) as ->.
    { specialize (H [Some 0]). simpl in H. injection H as _ H. apply (app_self_nil c0 [Some 0]), H. }
    destruct c1 as [|t' c1']; [split; reflexivity|].
    simpl in Hc. injection Hc as _ Hc.
    destruct c1'; simpl in Hc; [subst d; contradiction | discriminate].
Qed.

Lemma good_pret {A} (x : A) : good (pret x).
Proof.
  split.
  - intros ts y r H. injection H as -> ->. exists []. split; [reflexivity|]. intros r'. reflexivity.
  - intros c y H c1 d Hc Hd. specialize (H []). injection H as _ H.
    rewrite app_nil_r in H. subst c. destruct c1, d; simpl in Hc; congruence.
Qed.

Lemma good_praise {A} (e : py_error) : good (@praise A e).
Proof. split; [intros ts x r H; discriminate | intros c x H; discriminate (H [])]. Qed.

Lemma good_lift {A} (r : result A) : good (lift r).
Proof. destruct r as [e|x]; [exact (good_praise e) | exact (good_pret x)]. Qed.

Lemma good_pbind {A B} (p : parser A) (k : A -> parser B) :
  good p -> (forall y, good (k y)) -> good (pbind p k).
Proof.
  intros [Cp Sp] Hk. split.
  - intros ts x r H. unfold pbind in H.
    destruct (p ts) as [e|[y r1]] eqn:Ep; [discriminate|].
    destruct (Cp _ _ _ Ep) as (c1 & -> & Hp).
    destruct (proj1 (Hk y) _ _ _ H) as (c2 & -> & Hky).
    exists (c1 ++ c2). split; [apply app_assoc|].
    intros r'. unfold pbind. rewrite <- app_assoc, Hp. apply Hky.
  - intros c x H c1' d Hc Hd.
    assert (H0 := H []). rewrite app_nil_r in H0. unfold pbind in H0.
    destruct (p c) as [e|[y r1]] eqn:Ep; [discriminate|].
    destruct (Cp _ _ _ Ep) as (c1 & Ec & Hp).
    assert (Hky : forall r, k y (r1 ++ r) = inr (x, r)).
    { intros r. specialize (H r). unfold pbind in H. rewrite Ec, <- app_assoc, Hp in H. exact H. }
    assert (Case2 : forall l, c1' = c1 ++ l -> r1 = l ++ d ->
              pbind p k c1' = inl EOFError /\ forall r, pbind p k (c1' ++ None :: r) = inl ValueError).
    { intros l -> ->. destruct (proj2 (Hk y) (l ++ d) x Hky l d eq_refl Hd) as [E1 E2].
      unfold pbind. rewrite Hp. split; [exact E1|].
      intros r. rewrite <- app_assoc, Hp. apply E2. }
    rewrite Ec in Hc. destruct (app_eq_app _ _ _ _ Hc) as [l [[Hl1 Hl2] | [Hl1 Hl2]]].
    + destruct l as [|t l].
      * rewrite app_nil_r in Hl1. simpl in Hl2. apply (Case2 []); [rewrite app_nil_r; symmetry; exact Hl1 | symmetry; exact Hl2].
      * destruct (Sp c1 y Hp c1' (t :: l) Hl1 ltac:(discriminate)) as [E1 E2].
        unfold pbind. rewrite E1. split; [reflexivity|]. intros r. rewrite E2. reflexivity.
    + apply (Case2 l Hl1 Hl2).
Qed.

Lemma good_repeatP {A} (k : nat) (p : parser A) : good p -> good (repeatP k p).
Proof.
  intros Hp. induction k as [|k IH]; simpl.
  - apply good_pret.
  - apply good_pbind; [exact Hp|]. intros y. apply good_pbind; [exact IH|].
    intros ys. apply good_pret.
Qed.

Lemma good_read_pt (thr : Z) : good (read_pt thr).
Proof. apply good_pbind; [apply good_read_int | intros h; apply good_pret]. Qed.

Lemma good_parse_body (thr : Z) : good (parse_body thr).
Proof.
  unfold parse_body. cbv zeta.
  repeat first
    [ apply good_pbind; [|intros ?]
    | apply good_read_int
    | apply good_read_pt
    | apply good_pret
    | apply good_praise
    | apply good_lift
    | apply good_repeatP
    | match goal with |- good (if ?b then _ else _) => destruct b end ].
Qed.

(** [parse_instance] reads its instance from a prefix [c] of the token
    stream: the tokens after [c] are never looked at; cut anywhere
    strictly inside [c], the input raises [EOFError], and a non-integer
    token at such a position raises [ValueError]. *)
Theorem parse_reads_prefix (thr : Z) (ts : list token) (inst : DBAPInstance) :
  parse_instance ts thr = inr inst ->
  exists c rest, ts = c ++ rest /\
    (forall r, parse_instance (c ++ r) thr = inr inst) /\
    (forall c1 d, c = c1 ++ d -> d <> [] ->
       parse_instance c1 thr = inl EOFError /\
       forall r, parse_instance (c1 ++ None :: r) thr = inl ValueError).
Proof.
  unfold parse_instance. intros H.
  destruct (parse_body thr ts) as [e|[inst' rest]] eqn:E; [discriminate|].
  injection H as ->.
  destruct (good_parse_body thr) as [C S].
  destruct (C _ _ _ E) as (c & -> & Hc).
  exists c, rest. split; [reflexivity|]. split.
  - intros r. rewrite Hc. reflexivity.
  - intros c1 d Hcd Hd. destruct (S c inst Hc c1 d Hcd Hd) as [E1 E2].
    rewrite E1. split; [reflexivity|]. intros r. rewrite E2. reflexivity.
Qed.

Lemma parse_reads_prefix_witness :
  parse_instance (map Some [1; 1; 0; 0; 10; 99; 100; 7]) 99999 =
    inr {| num_vessels := 1; num_berths := 1; vessel_weights := [1];
           arrival_times := [0]; latest_departure_times := [100];
           processing_times := [[PT 10]]; berth_opening_times := [HOI 0 100] |} /\
  exists c rest, map Some [1; 1; 0; 0; 10; 99; 100; 7] = c ++ rest /\
    (forall r, parse_instance (c ++ r) 99999 =
       inr {| num_vessels := 1; num_berths := 1; vessel_weights := [1];
              arrival_times := [0]; latest_departure_times := [100];
              processing_times := [[PT 10]]; berth_opening_times := [HOI 0 100] |}) /\
    (forall c1 d, c = c1 ++ d -> d <> [] ->
       parse_instance c1 99999 = inl EOFError /\
       forall r, parse_instance (c1 ++ None :: r) 99999 = inl ValueError).
Proof.
  split; [reflexivity|]. apply parse_reads_prefix. reflexivity.
Defined.

End ParseExtra.

Module ParseShape.

(** Every instance [parse_instance] returns has positive vessel and berth
    counts, passes the [DBAPInstance] constructor's checks, has every
    weight 1, and every berth window non-empty: the closed input window
    [[o, e]] with [o <= e] becomes [[o, e + 1)], of length at least 1. *)
Theorem parsed_instance_shape (thr : Z) (ts : list token) (inst : DBAPInstance) :
  parse_instance ts thr = inr inst ->
  0 < num_vessels inst /\ 0 < num_berths inst /\
  mk_instance (num_vessels inst) (num_berths inst) (vessel_weights inst) (arrival_times inst)
    (latest_departure_times inst) (processing_times inst) (berth_opening_times inst) = inr inst /\
  vessel_weights inst = repeat 1 (Z.to_nat (num_vessels inst)) /\
  (forall b, (b < Z.to_nat (num_berths inst))%nat ->
     1 <= hoi_len (get_berth_interval inst b) /\ is_empty (get_berth_interval inst b) = false).
Proof.
  intros Hparse. unfold parse_instance in Hparse.
  destruct (parse_body thr ts) as [e|[inst' r]] eqn:E; [discriminate|].
  injection Hparse as ->. unfold parse_body in E.
  apply InstanceProps.pbind_inv in E as [n [t1 [_ E]]].
  apply InstanceProps.pbind_inv in E as [m [t2 [_ E]]].
  destruct (Z.leb_spec n 0); [discriminate|]. destruct (Z.leb_spec m 0); [discriminate|].
  apply InstanceProps.pbind_inv in E as [arrivals [t3 [_ E]]].
  apply InstanceProps.pbind_inv in E as [openings [t4 [_ E]]].
  apply InstanceProps.pbind_inv in E as [proc [t5 [_ E]]].
  apply InstanceProps.pbind_inv in E as [endings [t6 [_ E]]].
  destruct (existsb _ (seq 0 (Z.to_nat m))) eqn:Ew; [discriminate|].
  apply InstanceProps.pbind_inv in E as [latest [t7 [_ E]]].
  destruct (existsb _ (seq 0 (Z.to_nat n))) eqn:Ea; [discriminate|].
  apply InstanceProps.pbind_inv in E as [intervals [t8 [Hint E]]].
  apply InstanceProps.lift_inv in Hint as [intervals' [Hmap Heq]]. injection Heq as <- _.
  apply InstanceProps.lift_inv in E as [inst'' [Hmk Heq]]. injection Heq as <- _.
  pose proof Hmk as Hmk'.
  apply InstanceProps.mk_instance_inv in Hmk as [-> [_ [_ [_ [_ [_ Hwl]]]]]]. simpl.
  split; [lia|]. split; [lia|]. split; [exact Hmk'|]. split; [reflexivity|].
  intros b Hb. unfold get_berth_interval. simpl.
  assert (Hb' : (b < length intervals)%nat) by (unfold zlen in Hwl; lia).
  apply ParseProps.at_In in Hb'.
  destruct (InstanceProps.map_result_inv _ _ _ Hmap _ Hb') as [i [Hi Hmki]].
  pose proof (ParseProps.existsb_false_forall _ _ Ew i Hi) as Hoe. simpl in Hoe.
  apply Z.ltb_ge in Hoe.
  unfold mk_interval in Hmki. destruct (_ <? _); [discriminate|].
  injection Hmki as <-. unfold is_empty, hoi_len. simpl.
  split; [lia|]. apply Z.eqb_neq. lia.
Qed.

Lemma parsed_instance_shape_witness :
  parse_instance (map Some [1; 1; 0; 0; 10; 99; 100]) 99999 =
    inr {| num_vessels := 1; num_berths := 1; vessel_weights := [1];
           arrival_times := [0]; latest_departure_times := [100];
           processing_times := [[PT 10]]; berth_opening_times := [HOI 0 100] |} /\
  1 <= hoi_len (HOI 0 100).
Proof.
  split; [reflexivity|].
  exact (proj1 (proj2 (proj2 (proj2 (proj2 (parsed_instance_shape 99999
     (map Some [1; 1; 0; 0; 10; 99; 100]) _ eq_refl)))) 0%nat ltac:(simpl; lia))).
Defined.

End ParseShape.

Module GreedyExtra.

(** The candidate finish of vessel [v] on berth [b] in one scan, when the
    berth is eligible and the candidate interval fits the window and the
    deadline. *)
Definition candidate_end (inst : DBAPInstance) (free : list Z) (v b : nat) : option Z :=
  let pt := get_processing_time inst v b in
  if is_invalid pt then None else
  let w := get_berth_interval inst b in
  let e := Z.max (Z.max (at_ (arrival_times inst) v) (at_ free b)) (hoi_start w) + time pt in
  if (e <=? hoi_finish w) && (e <=? at_ (latest_departure_times inst) v) then Some e else None.

Lemma berth_step_candidate inst free v b acc :
  berth_step inst free v (at_ (arrival_times inst) v) (at_ (latest_departure_times inst) v) acc b =
  match candidate_end inst free v b with
  | None => acc
  | Some e => if lt_best e (best_finish acc)
              then {| best_finish := Some e;
                      best_start := e - time (get_processing_time inst v b);
                      best_b_id := Z.of_nat b |}
              else acc
  end.
Proof.
  unfold berth_step, candidate_end.
  destruct (is_invalid _); [reflexivity|]. cbv zeta.
  destruct (_ && _); [|reflexivity].
  destruct (lt_best _ _); [|reflexivity]. f_equal. lia.
Qed.

(** The scan over berths [0 .. k-1] keeps the first berth of least
    candidate finish. *)
Definition scan_inv inst free v (k : nat) (bst : best) : Prop :=
  (best_b_id bst = -1 /\ best_finish bst = None /\
     forall b, (b < k)%nat -> candidate_end inst free v b = None) \/
  (exists b e, (b < k)%nat /\ candidate_end inst free v b = Some e /\
     best_b_id bst = Z.of_nat b /\ best_finish bst = Some e /\
     best_start bst = e - time (get_processing_time inst v b) /\
     forall b' e', (b' < k)%nat -> candidate_end inst free v b' = Some e' ->
       e <= e' /\ (e' = e -> (b <= b')%nat)).

Lemma scan_inv_fold inst free v (k : nat) :
  scan_inv inst free v k
    (fold_left (berth_step inst free v (at_ (arrival_times inst) v)
                  (at_ (latest_departure_times inst) v)) (seq 0 k) best_init).
Proof.
  induction k as [|k IH].
  - left. split; [reflexivity|]. split; [reflexivity|]. intros b Hb; lia.
  - rewrite seq_S, fold_left_app. cbn [fold_left]. rewrite Nat.add_0_l, berth_step_candidate.
    set (acc := fold_left _ (seq 0 k) best_init) in *.
    destruct (candidate_end inst free v k) as [ek|] eqn:Ek.
    + destruct IH as [(Hid & Hfin & Hnone) | (b & e & Hb & Hc & Hid & Hfin & Hst & Hmin)].
      * rewrite Hfin. cbn [lt_best]. right. exists k, ek.
        split; [lia|]. split; [exact Ek|].
        split; [reflexivity|]. split; [reflexivity|]. split; [reflexivity|].
        intros b' e' Hb' Hc'. destruct (decide (b' = k)) as [->|Hne].
        -- rewrite Ek in Hc'. injection Hc' as <-. split; [lia|]. intros _. lia.
        -- rewrite Hnone in Hc' by lia. discriminate.
      * rewrite Hfin. cbn [lt_best]. destruct (Z.ltb_spec ek e).
        -- right. exists k, ek. split; [lia|]. split; [exact Ek|].
           split; [reflexivity|]. split; [reflexivity|]. split; [reflexivity|].
           intros b' e' Hb' Hc'. destruct (decide (b' = k)) as [->|Hne].
           ++ rewrite Ek in Hc'. injection Hc' as <-. lia.
           ++ destruct (Hmin b' e' ltac:(lia) Hc'). split; [lia|]. intros; lia.
        -- right. exists b, e. split; [lia|]. split; [exact Hc|].
           split; [exact Hid|]. split; [exact Hfin|]. split; [exact Hst|].
           intros b' e' Hb' Hc'. destruct (decide (b' = k)) as [->|Hne].
           ++ rewrite Ek in Hc'. injection Hc' as <-. split; [lia|]. intros _. lia.
           ++ apply Hmin; [lia | exact Hc'].
    + destruct IH as [(Hid & Hfin & Hnone) | (b & e & Hb & Hc & Hid & Hfin & Hst & Hmin)].
      * left. split; [exact Hid|]. split; [exact Hfin|]. intros b Hb.
        destruct (decide (b = k)) as [->|Hne]; [exact Ek | apply Hnone; lia].
      * right. exists b, e. split; [lia|]. split; [exact Hc|].
        split; [exact Hid|]. split; [exact Hfin|]. split; [exact Hst|].
        intros b' e' Hb' Hc'. destruct (decide (b' = k)) as [->|Hne].
        -- rewrite Ek in Hc'. discriminate.
        -- apply Hmin; [lia | exact Hc'].
Qed.

(** One step of the greedy loop for vessel [v]: it returns [None] exactly
    when no berth has a candidate interval that fits the window and the
    deadline; otherwise it places [v] on the berth of earliest candidate
    finish, the lowest-numbered one among equal finishes, records that
    finish as the vessel's end and as the berth's new free time. *)
Theorem greedy_step_earliest_finish (inst : DBAPInstance) (st : greedy_state) (v : nat) :
  (v < length (v_berths st))%nat -> (v < length (v_ends st))%nat ->
  (vessel_step inst st v = None <->
     forall b, (b < Z.to_nat (num_berths inst))%nat ->
       candidate_end inst (berth_free_times st) v b = None) /\
  (forall st', vessel_step inst st v = Some st' ->
     exists b e, (b < Z.to_nat (num_berths inst))%nat /\
       candidate_end inst (berth_free_times st) v b = Some e /\
       at_ (v_berths st') v = Z.of_nat b /\ at_ (v_ends st') v = e /\
       berth_free_times st' = <[b := e]> (berth_free_times st) /\
       forall b' e', (b' < Z.to_nat (num_berths inst))%nat ->
         candidate_end inst (berth_free_times st) v b' = Some e' ->
         e <= e' /\ (e' = e -> (b <= b')%nat)).
Proof.
  intros Hvb Hve. unfold vessel_step.
  destruct (scan_inv_fold inst (berth_free_times st) v (Z.to_nat (num_berths inst)))
    as [(Hid & Hfin & Hnone) | (b & e & Hb & Hc & Hid & Hfin & Hst & Hmin)].
  - rewrite Hid. cbn. split; [split; [intros _; exact Hnone | reflexivity]|].
    intros st' H'; discriminate.
  - rewrite Hid. destruct (Z.eqb_spec (Z.of_nat b) (-1)); [lia|]. split.
    + split; [intros H'; discriminate|]. intros Hall. rewrite Hall in Hc by exact Hb. discriminate.
    + intros st' H'. injection H' as <-. exists b, e.
      split; [exact Hb|]. split; [exact Hc|]. cbn [v_berths v_ends berth_free_times].
      rewrite Hfin. cbn [int_of_best]. rewrite Nat2Z.id.
      rewrite !GreedyProps.at_insert_eq by assumption.
      split; [reflexivity|]. split; [reflexivity|]. split; [reflexivity|]. exact Hmin.
Qed.

Lemma greedy_step_earliest_finish_witness :
  (0 < length (v_berths (greedy_initial_state scenario_b_instance)))%nat /\
  (vessel_step scenario_b_instance (greedy_initial_state scenario_b_instance) 0 = None <->
     forall b, (b < Z.to_nat (num_berths scenario_b_instance))%nat ->
       candidate_end scenario_b_instance
         (berth_free_times (greedy_initial_state scenario_b_instance)) 0 b = None).
Proof.
  split; [vm_compute; lia|].
  exact (proj1 (greedy_step_earliest_finish scenario_b_instance
                  (greedy_initial_state scenario_b_instance) 0
                  ltac:(vm_compute; lia) ltac:(vm_compute; lia))).
Defined.

Lemma greedy_unfold (inst : DBAPInstance) :
  num_vessels inst <> 0 ->
  greedy_heuristic inst =
  match vessel_loop inst (sorted_vessels inst) (greedy_initial_state inst) with
  | None => None
  | Some st => solution_or_none (mk_solution (v_berths st) (v_starts st) (v_ends st)
                                   (vessel_weights inst) (arrival_times inst))
  end.
Proof. intros H. unfold greedy_heuristic. rewrite (proj2 (Z.eqb_neq _ _) H). reflexivity. Qed.

Lemma ginv_initial (inst : DBAPInstance) :
  GreedyProps.ginv inst (fun _ => False) (greedy_initial_state inst).
Proof.
  unfold GreedyProps.ginv, greedy_initial_state; cbn [berth_free_times v_berths v_starts v_ends].
  rewrite List.length_map, length_seq, !repeat_length.
  split; [reflexivity|]. split; [reflexivity|]. split; [reflexivity|].
  split; [reflexivity|]. split; [intros _ []|]. intros v1 v2 [].
Qed.

Lemma sorted_in (inst : DBAPInstance) (v : nat) :
  In v (sorted_vessels inst) <-> (v < Z.to_nat (num_vessels inst))%nat.
Proof.
  split; intros H.
  - apply (Permutation_in _ (GreedyProps.sorted_vessels_perm inst)), in_seq in H. lia.
  - apply (Permutation_in _ (symmetry (GreedyProps.sorted_vessels_perm inst))), in_seq. lia.
Qed.

Lemma sorted_nodup (inst : DBAPInstance) : List.NoDup (sorted_vessels inst).
Proof.
  exact (Permutation_NoDup (symmetry (GreedyProps.sorted_vessels_perm inst))
           (List.seq_NoDup _ 0)).
Qed.

(** The final state of a completed vessel loop satisfies the invariant
    over all vessels. *)
Lemma loop_final (inst : DBAPInstance) st :
  vessel_loop inst (sorted_vessels inst) (greedy_initial_state inst) = Some st ->
  GreedyProps.ginv inst (fun w => In w (sorted_vessels inst) \/ False) st.
Proof.
  intros Hl. apply (GreedyProps.vessel_loop_ok inst _ _ _ _ (ginv_initial inst) (sorted_nodup inst));
    [|exact Hl].
  intros v Hv. split; [apply sorted_in, Hv | intros []].
Qed.

Section Durations.
Variable inst : DBAPInstance.
Local Abbreviation N := (Z.to_nat (num_vessels inst)).

(** Each placed vessel runs for its processing time on its berth, a valid
    one, from no earlier than the berth's opening. *)
Definition dinv (D : nat -> Prop) (st : greedy_state) : Prop :=
  forall v, D v ->
    let b := Z.to_nat (at_ (v_berths st) v) in
    is_valid (get_processing_time inst v b) = true /\
    hoi_start (get_berth_interval inst b) <= at_ (v_starts st) v /\
    at_ (v_ends st) v = at_ (v_starts st) v + time (get_processing_time inst v b).

Lemma dinv_step D st (v : nat) st' :
  GreedyProps.ginv inst D st -> dinv D st -> (v < N)%nat ->
  vessel_step inst st v = Some st' -> dinv (fun w => w = v \/ D w) st'.
Proof.
  intros (Hfl & Hbl & Hsl & Hel & _) Hd Hv Hstep.
  unfold vessel_step in Hstep.
  set (bst := fold_left _ _ best_init) in Hstep.
  assert (Hscan : GreedyProps.scan_ok inst (berth_free_times st) v (at_ (arrival_times inst) v)
                    (at_ (latest_departure_times inst) v) bst).
  { apply GreedyProps.scan_fold_ok; [intros b Hb; apply in_seq in Hb; lia | left; split; reflexivity]. }
  destruct (Z.eqb_spec (best_b_id bst) (-1)) as [|Hne]; [discriminate|].
  injection Hstep as <-.
  destruct Hscan as [[Hid _] | (b & HbM & Hbid & Hvalid & Hstart & Hfin & _ & _)];
    [contradiction|].
  rewrite Hbid, Hfin. intros w Hw. cbv zeta.
  cbn [int_of_best v_berths v_starts v_ends].
  destruct (decide (w = v)) as [->|Hwv].
  - rewrite !GreedyProps.at_insert_eq by lia. rewrite Nat2Z.id.
    split; [exact Hvalid|]. split; [|reflexivity]. rewrite Hstart. lia.
  - destruct Hw as [->|Hw]; [contradiction|].
    rewrite !GreedyProps.at_insert_ne by congruence. exact (Hd w Hw).
Qed.

Lemma dinv_loop (order : list nat) D st st' :
  GreedyProps.ginv inst D st -> dinv D st -> List.NoDup order ->
  (forall v, In v order -> (v < N)%nat /\ ~ D v) ->
  vessel_loop inst order st = Some st' ->
  dinv (fun w => In w order \/ D w) st'.
Proof.
  revert D st. induction order as [|v order IH]; intros D st Hinv Hd Hnd Hord Hloop;
    simpl in Hloop.
  - injection Hloop as <-. intros w [[] | Hw]. exact (Hd w Hw).
  - destruct (vessel_step inst st v) as [st1|] eqn:Estep; [|discriminate].
    inversion Hnd as [|? ? Hnotin Hnd']; subst.
    destruct (Hord v (or_introl eq_refl)) as [Hv HDv].
    assert (Hord' : forall w, In w order -> (w < N)%nat /\ ~ (w = v \/ D w)).
    { intros w Hw. destruct (Hord w (or_intror Hw)) as [Hw1 Hw2].
      split; [exact Hw1|]. intros [-> | HD]; [contradiction | exact (Hw2 HD)]. }
    pose proof (IH _ st1 (GreedyProps.vessel_step_ok inst D st v st1 Hinv Hv HDv Estep)
                  (dinv_step D st v st1 Hinv Hd Hv Estep) Hnd' Hord' Hloop) as Hd'.
    intros w Hw. apply Hd'.
    destruct Hw as [[-> | Hw] | Hw]; [right; left | left | right; right]; auto.
Qed.

End Durations.

Lemma greedy_run (inst : DBAPInstance) (sol : Solution) :
  greedy_heuristic inst = Some sol ->
  (num_vessels inst = 0 /\ vessel_berths sol = [] /\ vessel_start_times sol = [] /\
     vessel_end_times sol = []) \/
  (num_vessels inst <> 0 /\ exists st,
     vessel_loop inst (sorted_vessels inst) (greedy_initial_state inst) = Some st /\
     mk_solution (v_berths st) (v_starts st) (v_ends st) (vessel_weights inst)
       (arrival_times inst) = inr sol).
Proof.
  intros Hg. destruct (Z.eqb_spec (num_vessels inst) 0) as [H0|H0].
  - left. unfold greedy_heuristic in Hg. rewrite H0 in Hg. cbn in Hg.
    injection Hg as <-. repeat split; assumption || reflexivity.
  - right. split; [exact H0|]. rewrite (greedy_unfold inst H0) in Hg.
    destruct (vessel_loop _ _ _) as [st|]; [|discriminate].
    exists st. split; [reflexivity|]. unfold solution_or_none in Hg.
    destruct (mk_solution _ _ _ _ _); [discriminate|]. injection Hg as ->. reflexivity.
Qed.

(** In a schedule the greedy heuristic returns, every vessel runs for
    exactly its processing time on its berth, which is a valid one, and
    starts no earlier than that berth opens. *)
Theorem greedy_uses_processing_times (inst : DBAPInstance) (sol : Solution) :
  greedy_heuristic inst = Some sol ->
  forall v, (v < Z.to_nat (num_vessels inst))%nat ->
    let b := Z.to_nat (at_ (vessel_berths sol) v) in
    is_valid (get_processing_time inst v b) = true /\
    hoi_start (get_berth_interval inst b) <= at_ (vessel_start_times sol) v /\
    at_ (vessel_end_times sol) v =
      at_ (vessel_start_times sol) v + time (get_processing_time inst v b).
Proof.
  intros Hg v Hv.
  destruct (greedy_run inst sol Hg) as [(H0 & _) | (H0 & st & Hl & Hmk)].
  - rewrite H0 in Hv. simpl in Hv. lia.
  - destruct (GreedyProps.mk_solution_fields _ _ _ _ _ _ Hmk) as (-> & -> & ->).
    assert (Hd0 : dinv inst (fun _ => False) (greedy_initial_state inst)) by (intros w []).
    refine (dinv_loop inst _ _ _ _ (ginv_initial inst) Hd0 (sorted_nodup inst) _ Hl v _).
    + intros w Hw. split; [apply sorted_in, Hw | intros []].
    + left. apply sorted_in, Hv.
Qed.

Lemma greedy_uses_processing_times_witness :
  greedy_heuristic scenario_b_instance = Some scenario_b_greedy_solution /\
  is_valid (get_processing_time scenario_b_instance 1 0) = true /\
  hoi_start (get_berth_interval scenario_b_instance 0) <= 10 /\ 18 = 10 + 8.
Proof.
  split; [vm_compute; reflexivity|].
  exact (greedy_uses_processing_times scenario_b_instance scenario_b_greedy_solution
           ltac:(vm_compute; reflexivity) 1 ltac:(vm_compute; lia)).
Defined.

Lemma mk_solution_ok (berths starts ends weights arrivals : list Z) :
  let n := length berths in
  length starts = n -> length ends = n -> length weights = n -> length arrivals = n ->
  (forall i, (i < n)%nat -> at_ starts i <= at_ ends i) ->
  exists sol, mk_solution berths starts ends weights arrivals = inr sol.
Proof.
  intros n Hs He Hw Ha Hle. unfold mk_solution. fold n.
  rewrite Hs, He, Hw, Ha, Nat.eqb_refl. cbn [negb].
  rewrite (SolutionProps.metric_loop_ok starts ends weights arrivals n Hle). eauto.
Qed.

(** On an instance the [DBAPInstance] constructor accepted, the
    [except ValueError: return None] of [greedy_heuristic] is never taken:
    it returns [None] exactly when its vessel loop stops at a vessel with
    no fitting berth. *)
Theorem greedy_none_iff_stuck n m weights arrivals latest proc windows (inst : DBAPInstance) :
  mk_instance n m weights arrivals latest proc windows = inr inst ->
  (greedy_heuristic inst = None <->
   vessel_loop inst (sorted_vessels inst) (greedy_initial_state inst) = None).
Proof.
  intros Hmk. apply InstanceProps.mk_instance_inv in Hmk as (Hinst & Hw & Ha & _).
  assert (Hn : num_vessels inst = n) by (rewrite Hinst; reflexivity).
  assert (Hwi : vessel_weights inst = weights) by (rewrite Hinst; reflexivity).
  assert (Hai : arrival_times inst = arrivals) by (rewrite Hinst; reflexivity).
  destruct (Z.eqb_spec (num_vessels inst) 0) as [H0|H0].
  - unfold greedy_heuristic, sorted_vessels. rewrite H0. cbn. split; intros H'; discriminate.
  - rewrite (greedy_unfold inst H0).
    destruct (vessel_loop _ _ _) as [st|] eqn:El; [|split; reflexivity].
    split; [|intros H'; discriminate]. intros Hg. exfalso.
    pose proof (loop_final inst st El) as (_ & Hbl & Hsl & Hel & Hpl & _).
    unfold zlen in Hw, Ha. rewrite Hwi, Hai in Hg.
    destruct (mk_solution_ok (v_berths st) (v_starts st) (v_ends st) weights arrivals)
      as [sol Hsol]; [lia | lia | lia | lia | |].
    + intros i Hi. destruct (Hpl i) as (_ & _ & Hse & _).
      * left. apply sorted_in. lia.
      * exact Hse.
    + rewrite Hsol in Hg. discriminate.
Qed.

Lemma greedy_none_iff_stuck_witness :
  scenario_b = inr scenario_b_instance /\
  (greedy_heuristic scenario_b_instance = None <->
   vessel_loop scenario_b_instance (sorted_vessels scenario_b_instance)
     (greedy_initial_state scenario_b_instance) = None).
Proof.
  split; [reflexivity|].
  exact (greedy_none_iff_stuck 3 2 [1; 1; 1] [0; 5; 10] [100; 100; 100]
    [[PT 10; PT 12]; [PT 8; INVALID_PROCESSING_TIME]; [PT 6; PT 5]]
    [HOI 0 50; HOI 5 60] scenario_b_instance eq_refl).
Defined.

End GreedyExtra.

Module SolveExtra.

(** The pair [(v, b)] survives the skip and both prunings of the
    encoding loop. *)
Definition eligible (inst : DBAPInstance) (v b : nat) : bool :=
  let pt := get_processing_time inst v b in
  let w := get_berth_interval inst b in
  let ef := Z.max (at_ (arrival_times inst) v) (hoi_start w) + time pt in
  is_valid pt && (ef <=? hoi_finish w) && (ef <=? at_ (latest_departure_times inst) v).

Lemma encode_option_none config g inst v w b :
  encode_option config g inst v (at_ (arrival_times inst) v) (at_ (latest_departure_times inst) v) w b = None
  <-> eligible inst v b = false.
Proof.
  unfold encode_option, eligible. rewrite PTProps.is_invalid_negb.
  destruct (is_valid _); cbn [negb andb]; [|split; reflexivity].
  cbv zeta.
  destruct (Z.ltb_spec (hoi_finish (get_berth_interval inst b))
              (Z.max (at_ (arrival_times inst) v) (hoi_start (get_berth_interval inst b)) +
               time (get_processing_time inst v b))),
           (Z.leb_spec (Z.max (at_ (arrival_times inst) v) (hoi_start (get_berth_interval inst b)) +
               time (get_processing_time inst v b)) (hoi_finish (get_berth_interval inst b)));
    try lia; cbn [andb]; [split; reflexivity|].
  destruct (Z.ltb_spec (at_ (latest_departure_times inst) v)
              (Z.max (at_ (arrival_times inst) v) (hoi_start (get_berth_interval inst b)) +
               time (get_processing_time inst v b))),
           (Z.leb_spec (Z.max (at_ (arrival_times inst) v) (hoi_start (get_berth_interval inst b)) +
               time (get_processing_time inst v b)) (at_ (latest_departure_times inst) v));
    try lia; split; intros H'; reflexivity || discriminate.
Qed.

Lemma encode_option_some config g inst v w b o :
  encode_option config g inst v (at_ (arrival_times inst) v) (at_ (latest_departure_times inst) v) w b = Some o ->
  let pt := get_processing_time inst v b in
  let win := get_berth_interval inst b in
  let s0 := Z.max (at_ (arrival_times inst) v) (hoi_start win) in
  opt_berth o = b /\ is_valid pt = true /\ opt_duration o = time pt /\
  opt_local_start o = {| lb := s0; ub := at_ (latest_departure_times inst) v |} /\
  opt_local_end o = {| lb := s0 + time pt; ub := at_ (latest_departure_times inst) v |} /\
  s0 + time pt <= at_ (latest_departure_times inst) v /\
  s0 + time pt <= hoi_finish win /\
  opt_finish_bound o = hoi_finish win /\ opt_obj_coeff o = w * time pt.
Proof.
  unfold encode_option. rewrite PTProps.is_invalid_negb.
  destruct (is_valid _) eqn:Ev; cbn [negb]; [|discriminate]. cbv zeta.
  set (ef := Z.max (at_ (arrival_times inst) v) (hoi_start (get_berth_interval inst b)) +
              time (get_processing_time inst v b)).
  destruct (Z.ltb_spec (hoi_finish (get_berth_interval inst b)) ef); [discriminate|].
  destruct (Z.ltb_spec (at_ (latest_departure_times inst) v) ef); [discriminate|].
  intros H'. injection H' as <-. unfold ef in *. cbn.
  repeat split; reflexivity || lia.
Qed.

Lemma omap_cons_eq {A B} (f : A -> option B) (x : A) (l : list A) :
  omap f (x :: l) = match f x with Some y => y :: omap f l | None => omap f l end.
Proof. reflexivity. Qed.

Lemma omap_berths config g inst v w (l : list nat) :
  let F := encode_option config g inst v (at_ (arrival_times inst) v)
             (at_ (latest_departure_times inst) v) w in
  map opt_berth (omap F l) = List.filter (eligible inst v) l /\
  (forall o, In o (omap F l) -> exists b, In b l /\ F b = Some o).
Proof.
  intros F. induction l as [|b l [IH1 IH2]]; [split; [reflexivity | intros o []]|].
  rewrite omap_cons_eq. cbn [List.filter]. destruct (F b) as [o|] eqn:Eb.
  - pose proof (encode_option_some _ _ _ _ _ _ _ Eb) as (Hb & _).
    assert (Hel : eligible inst v b = true).
    { apply not_false_iff_true. intros Hf. apply (encode_option_none config g inst v w b) in Hf.
      unfold F in Eb. congruence. }
    rewrite Hel. cbn [map]. rewrite Hb, IH1. split; [reflexivity|].
    intros o' [<- | Ho]; [exists b; split; [left; reflexivity | exact Eb]|].
    destruct (IH2 o' Ho) as [b' [Hb' Hf]]. exists b'. split; [right; exact Hb' | exact Hf].
  - apply (encode_option_none config g inst v w b) in Eb. rewrite Eb.
    split; [exact IH1|]. intros o Ho. destruct (IH2 o Ho) as [b' [Hb' Hf]].
    exists b'. split; [right; exact Hb' | exact Hf].
Qed.

Lemma encoded_inv config inst h m :
  solve_encode config inst = Encoded h m ->
  num_vessels inst <> 0 /\ compute_horizon inst = Some h /\
  Forall2 (fun v vv => encode_vessel config (greedy_heuristic inst) inst v = Some vv)
    (seq 0 (Z.to_nat (num_vessels inst))) (model_vessels m) /\
  constant_offset m =
    fold_left (fun acc v => acc - at_ (vessel_weights inst) v * at_ (arrival_times inst) v)
      (seq 0 (Z.to_nat (num_vessels inst))) 0.
Proof.
  unfold solve_encode. destruct (Z.eqb_spec (num_vessels inst) 0); [discriminate|].
  destruct (compute_horizon inst) as [h'|]; [|discriminate].
  destruct (encode_vessels _ _ _ _) as [vvs|] eqn:Ev; [|discriminate].
  intros H'. injection H' as <- <-. cbn [model_vessels constant_offset].
  split; [assumption|]. split; [reflexivity|]. split; [|reflexivity].
  exact (SolveProps.encode_vessels_spec _ _ _ _ _ Ev).
Qed.

Lemma encoded_vessel config inst h m (v : nat) :
  solve_encode config inst = Encoded h m -> (v < Z.to_nat (num_vessels inst))%nat ->
  length (model_vessels m) = Z.to_nat (num_vessels inst) /\
  encode_vessel config (greedy_heuristic inst) inst v = Some (at_ (model_vessels m) v).
Proof.
  intros Henc Hv. destruct (encoded_inv _ _ _ _ Henc) as (_ & _ & HF & _).
  split; [apply Forall2_length in HF; rewrite length_seq in HF; lia|].
  pose proof (SolveProps.Forall2_at _ _ _ v HF) as Hat. rewrite length_seq in Hat.
  specialize (Hat Hv). rewrite ParseProps.at_seq in Hat by exact Hv. exact Hat.
Qed.

Lemma encode_vessel_options config g inst v vv :
  encode_vessel config g inst v = Some vv ->
  vv_obj_coeff vv = at_ (vessel_weights inst) v /\
  vv_options vv = omap (encode_option config g inst v (at_ (arrival_times inst) v)
                          (at_ (latest_departure_times inst) v) (at_ (vessel_weights inst) v))
                       (seq 0 (Z.to_nat (num_berths inst))).
Proof.
  unfold encode_vessel. destruct (omap _ _) eqn:Eo; [discriminate|].
  intros H'. injection H' as <-. split; reflexivity.
Qed.

(** In the model handed to the engine, the optional intervals of vessel
    [v] are, in berth order, exactly the berths [b < M] where [v] has a
    valid processing time and its earliest finish
    [max(arrival, window start) + duration] is within the berth's window
    and the vessel's deadline. Each carries that duration, the local start
    domain [[max(arrival, window start), deadline]] and the local end
    domain [[max(arrival, window start) + duration, deadline]], both
    non-empty, the closing bound of the window, and the objective weight
    [weight * duration]. *)
Theorem encoded_options_exact config inst h m (v : nat) :
  solve_encode config inst = Encoded h m -> (v < Z.to_nat (num_vessels inst))%nat ->
  let vv := at_ (model_vessels m) v in
  let arrival := at_ (arrival_times inst) v in
  let deadline := at_ (latest_departure_times inst) v in
  map opt_berth (vv_options vv) =
    List.filter (eligible inst v) (seq 0 (Z.to_nat (num_berths inst))) /\
  forall o, In o (vv_options vv) ->
    let b := opt_berth o in
    let pt := get_processing_time inst v b in
    let win := get_berth_interval inst b in
    let s0 := Z.max arrival (hoi_start win) in
    (b < Z.to_nat (num_berths inst))%nat /\ is_valid pt = true /\ opt_duration o = time pt /\
    opt_local_start o = {| lb := s0; ub := deadline |} /\
    opt_local_end o = {| lb := s0 + time pt; ub := deadline |} /\
    s0 <= s0 + time pt <= deadline /\ s0 + time pt <= hoi_finish win /\
    opt_finish_bound o = hoi_finish win /\
    opt_obj_coeff o = at_ (vessel_weights inst) v * time pt.
Proof.
  intros Henc Hv. cbv zeta.
  destruct (encoded_vessel _ _ _ _ v Henc Hv) as [_ Hvv].
  destruct (encode_vessel_options _ _ _ _ _ Hvv) as [_ ->].
  destruct (omap_berths config (greedy_heuristic inst) inst v (at_ (vessel_weights inst) v)
              (seq 0 (Z.to_nat (num_berths inst)))) as [Hmap Hin].
  split; [exact Hmap|].
  intros o Ho. destruct (Hin o Ho) as [b [Hb Hf]].
  destruct (encode_option_some _ _ _ _ _ _ _ Hf) as (-> & Hval & Hd & Hs & He & Hdl & Hwf & Hfb & Hc).
  apply in_seq in Hb. unfold is_valid in Hval.
  split; [lia|]. split; [unfold is_valid; exact Hval|]. split; [exact Hd|]. split; [exact Hs|].
  split; [exact He|]. split; [split; [apply Z.leb_le in Hval; lia | exact Hdl]|].
  split; [exact Hwf|]. split; [exact Hfb | exact Hc].
Qed.

Lemma encoded_options_exact_witness :
  solve_encode default_config scenario_b_instance =
    Encoded scenario_b_encoded.1 scenario_b_encoded.2 /\
  map opt_berth (vv_options (at_ (model_vessels scenario_b_encoded.2) 1)) =
    List.filter (eligible scenario_b_instance 1) (seq 0 2).
Proof.
  split; [vm_compute; reflexivity|].
  exact (proj1 (encoded_options_exact default_config scenario_b_instance _ _ 1
                  ltac:(vm_compute; reflexivity) ltac:(vm_compute; lia))).
Defined.

Lemma at_map_seq {A} `{Inhabited A} (f : nat -> A) (k i : nat) :
  (i < k)%nat -> at_ (map f (seq 0 k)) i = f i.
Proof.
  intros Hi. rewrite ParseProps.at_map by (rewrite length_seq; exact Hi).
  rewrite ParseProps.at_seq by exact Hi. reflexivity.
Qed.

Lemma mk_solution_total (berths starts ends weights arrivals : list Z) (sol : Solution) :
  mk_solution berths starts ends weights arrivals = inr sol ->
  total_weighted_turnaround_time sol =
    zsum (map (fun i => at_ weights i * (at_ ends i - at_ arrivals i)) (seq 0 (length berths))).
Proof.
  intros Hmk. unfold mk_solution in Hmk.
  set (n := length berths) in *.
  destruct (Nat.eqb_spec (length starts) n); [|discriminate].
  destruct (Nat.eqb_spec (length ends) n); [|discriminate].
  destruct (Nat.eqb_spec (length weights) n); [|discriminate].
  destruct (Nat.eqb_spec (length arrivals) n); [|discriminate].
  cbn [negb] in Hmk.
  assert (Hle : forall i, (i < n)%nat -> at_ starts i <= at_ ends i).
  { intros i Hi. destruct (Z.le_gt_cases (at_ starts i) (at_ ends i)) as [|Hgt]; [assumption|].
    destruct (SolutionProps.metric_loop_fails starts ends weights arrivals n i Hi ltac:(lia))
      as [err Hf].
    rewrite Hf in Hmk. discriminate. }
  rewrite (SolutionProps.metric_loop_ok starts ends weights arrivals n Hle) in Hmk.
  injection Hmk as <-. reflexivity.
Qed.

(** [extract] on an answer of status OPTIMAL or FEASIBLE whose berth
    values all give valid processing times: the [Solution] built from the
    values, with [end = start + duration]. *)
Lemma extract_ok (inst : DBAPInstance) (ans : engine_answer) :
  let N := Z.to_nat (num_vessels inst) in
  let berth := value_berth ans in
  let start := value_start ans in
  let dur v := time (get_processing_time inst v (Z.to_nat (berth v))) in
  length (vessel_weights inst) = N -> length (arrival_times inst) = N ->
  (status ans = OPTIMAL \/ status ans = FEASIBLE) ->
  (forall v, (v < N)%nat -> is_valid (get_processing_time inst v (Z.to_nat (berth v))) = true) ->
  exists sol, extract inst ans = inr (Some sol) /\
    mk_solution (map berth (seq 0 N)) (map start (seq 0 N))
      (map (fun v => start v + dur v) (seq 0 N))
      (vessel_weights inst) (arrival_times inst) = inr sol.
Proof.
  intros N berth start dur Hw Ha Hst Hval.
  subst dur start berth.
  assert (Hmr : map_result (fun v =>
              let b_val := value_berth ans v in
              let s_val := value_start ans v in
              match value (get_processing_time inst v (Z.to_nat b_val)) with
              | inl e => inl e
              | inr duration => inr (b_val, s_val, s_val + duration)
              end) (seq 0 N) =
            inr (map (fun v => (value_berth ans v, value_start ans v, value_start ans v +
                   time (get_processing_time inst v (Z.to_nat (value_berth ans v))))) (seq 0 N))).
  { apply ParseProps.map_result_ok. intros v Hv. apply in_seq in Hv. cbv zeta.
    unfold value. rewrite (Hval v ltac:(lia)). reflexivity. }
  destruct (GreedyExtra.mk_solution_ok (map (value_berth ans) (seq 0 N)) (map (value_start ans) (seq 0 N))
              (map (fun v => value_start ans v +
                      time (get_processing_time inst v (Z.to_nat (value_berth ans v)))) (seq 0 N))
              (vessel_weights inst) (arrival_times inst))
    as [sol Hsol]; rewrite ?List.length_map, ?length_seq; try lia.
  { intros i Hi. rewrite !at_map_seq by exact Hi.
    pose proof (Hval i Hi) as Hvi. unfold is_valid in Hvi. apply Z.leb_le in Hvi. lia. }
  exists sol. split; [|exact Hsol].
  unfold extract. fold N.
  cbv zeta in Hmr |- *.
  destruct Hst as [Hst|Hst]; rewrite Hst; rewrite Hmr; rewrite !List.map_map; cbn;
    change (fun x : nat => value_berth ans x) with (value_berth ans);
    change (fun x : nat => value_start ans x) with (value_start ans);
    rewrite Hsol; reflexivity.
Qed.

Lemma encoded_answer_valid config inst h m (ans : engine_answer) :
  solve_encode config inst = Encoded h m ->
  (forall v, (v < Z.to_nat (num_vessels inst))%nat ->
     exists o, In o (vv_options (at_ (model_vessels m) v)) /\
       value_berth ans v = Z.of_nat (opt_berth o)) ->
  forall v, (v < Z.to_nat (num_vessels inst))%nat ->
    exists o, In o (vv_options (at_ (model_vessels m) v)) /\
      Z.to_nat (value_berth ans v) = opt_berth o /\
      is_valid (get_processing_time inst v (opt_berth o)) = true /\
      opt_obj_coeff o = at_ (vessel_weights inst) v * time (get_processing_time inst v (opt_berth o)).
Proof.
  intros Henc Hans v Hv. destruct (Hans v Hv) as [o [Ho Hb]].
  destruct (encoded_vessel _ _ _ _ v Henc Hv) as [_ Hvv].
  destruct (encode_vessel_options _ _ _ _ _ Hvv) as [_ Hopts].
  rewrite Hopts in Ho.
  destruct (proj2 (omap_berths config (greedy_heuristic inst) inst v (at_ (vessel_weights inst) v)
                     (seq 0 (Z.to_nat (num_berths inst)))) o Ho) as [b [_ Hf]].
  destruct (encode_option_some _ _ _ _ _ _ _ Hf) as (Hob & Hval & _ & _ & _ & _ & _ & _ & Hc).
  exists o. rewrite Hopts. split; [exact Ho|]. rewrite Hb, Nat2Z.id, Hob.
  split; [reflexivity|]. split; [exact Hval | exact Hc].
Qed.

(** On an instance the [DBAPInstance] constructor accepted, once the
    engine reports OPTIMAL or FEASIBLE with each vessel's berth value the
    berth of one of its optional intervals (as the constraints
    [v_berth == b].OnlyEnforceIf(is_present) and [sum(presence) == 1]
    force), [solve] does not raise: it returns the solution whose berths
    and starts are the engine's values and whose end times are start plus
    the vessel's processing time on that berth, a valid one. *)
Theorem solve_returns_engine_schedule (engine : CpModel -> engine_answer) config
    n mm weights arrivals latest proc windows (inst : DBAPInstance) h m :
  mk_instance n mm weights arrivals latest proc windows = inr inst ->
  solve_encode config inst = Encoded h m ->
  let ans := engine m in
  let N := Z.to_nat (num_vessels inst) in
  (status ans = OPTIMAL \/ status ans = FEASIBLE) ->
  (forall v, (v < N)%nat -> exists o, In o (vv_options (at_ (model_vessels m) v)) /\
       value_berth ans v = Z.of_nat (opt_berth o)) ->
  exists sol, solve engine config inst = inr (Some sol) /\
    vessel_berths sol = map (value_berth ans) (seq 0 N) /\
    vessel_start_times sol = map (value_start ans) (seq 0 N) /\
    forall v, (v < N)%nat ->
      let b := Z.to_nat (value_berth ans v) in
      is_valid (get_processing_time inst v b) = true /\
      at_ (vessel_end_times sol) v = value_start ans v + time (get_processing_time inst v b).
Proof.
  intros Hmk Henc ans N Hst Hans.
  apply InstanceProps.mk_instance_inv in Hmk as (Hinst & Hw & Ha & _).
  assert (Hn : num_vessels inst = n) by (rewrite Hinst; reflexivity).
  assert (HwN : length (vessel_weights inst) = N)
    by (unfold N; rewrite Hn, Hinst; unfold zlen in Hw; cbn; lia).
  assert (HaN : length (arrival_times inst) = N)
    by (unfold N; rewrite Hn, Hinst; unfold zlen in Ha; cbn; lia).
  pose proof (encoded_answer_valid config inst h m ans Henc Hans) as Hval.
  destruct (extract_ok inst ans HwN HaN Hst) as [sol [Hex Hsol]].
  { intros v Hv. destruct (Hval v Hv) as (o & _ & Hb & Hvo & _). rewrite Hb. exact Hvo. }
  exists sol. split; [unfold solve; rewrite Henc; exact Hex|].
  destruct (GreedyProps.mk_solution_fields _ _ _ _ _ _ Hsol) as (Hb & Hs & He).
  split; [exact Hb|]. split; [exact Hs|].
  intros v Hv. rewrite He, at_map_seq by exact Hv. split; [|reflexivity].
  destruct (Hval v Hv) as (o & _ & Hbo & Hvo & _). rewrite Hbo. exact Hvo.
Qed.

Lemma scenario_b_answer_in_options :
  forall v, (v < 3)%nat -> exists o,
    In o (vv_options (at_ (model_vessels scenario_b_encoded.2) v)) /\
    value_berth scenario_b_answer v = Z.of_nat (opt_berth o).
Proof.
  intros v Hv. destruct v as [|[|[|v]]]; [..|lia]; vm_compute;
    first [ (eexists; split; [left; reflexivity | reflexivity])
          | (eexists; split; [right; left; reflexivity | reflexivity]) ].
Qed.

Lemma solve_returns_engine_schedule_witness :
  exists sol, solve (fun _ => scenario_b_answer) default_config scenario_b_instance = inr (Some sol) /\
    vessel_berths sol = [0; 0; 1] /\ vessel_start_times sol = [0; 10; 10] /\
    at_ (vessel_end_times sol) 2 = 15.
Proof.
  destruct (solve_returns_engine_schedule (fun _ => scenario_b_answer) default_config
              3 2 [1; 1; 1] [0; 5; 10] [100; 100; 100]
              [[PT 10; PT 12]; [PT 8; INVALID_PROCESSING_TIME]; [PT 6; PT 5]]
              [HOI 0 50; HOI 5 60] scenario_b_instance
              scenario_b_encoded.1 scenario_b_encoded.2
              ltac:(reflexivity) ltac:(vm_compute; reflexivity)
              ltac:(left; reflexivity) scenario_b_answer_in_options)
    as (sol & Hs & Hb & Hst & He).
  exists sol. split; [exact Hs|]. split; [rewrite Hb; reflexivity|].
  split; [rewrite Hst; reflexivity|].
  rewrite (proj2 (He 2%nat ltac:(vm_compute; lia))). reflexivity.
Defined.

Lemma zsum_zero {A} (f : A -> Z) (l : list A) :
  (forall x, In x l -> f x = 0) -> zsum (map f l) = 0.
Proof.
  induction l as [|x l IH]; intros H; [reflexivity|]. cbn [map zsum fold_right].
  fold (zsum (map f l)). rewrite H by (left; reflexivity). rewrite IH by (intros; apply H; right; assumption).
  reflexivity.
Qed.

Lemma zsum_pick {A} (f : A -> nat) (c : A -> Z) (l : list A) (o : A) :
  List.NoDup (map f l) -> In o l ->
  zsum (map (fun o' => if Z.of_nat (f o) =? Z.of_nat (f o') then c o' else 0) l) = c o.
Proof.
  induction l as [|x l IH]; intros Hnd Hin; [destruct Hin|].
  cbn [map] in Hnd. inversion Hnd as [|? ? Hnotin Hnd']; subst.
  cbn [map zsum fold_right]. fold (zsum (map (fun o' => if Z.of_nat (f o) =? Z.of_nat (f o') then c o' else 0) l)).
  destruct Hin as [-> | Hin].
  - rewrite Z.eqb_refl, zsum_zero; [lia|].
    intros y Hy. destruct (Z.eqb_spec (Z.of_nat (f o)) (Z.of_nat (f y))) as [Heq|]; [|reflexivity].
    apply Nat2Z.inj in Heq. exfalso. apply Hnotin. rewrite Heq. apply in_map, Hy.
  - rewrite IH by assumption.
    destruct (Z.eqb_spec (Z.of_nat (f o)) (Z.of_nat (f x))) as [Heq|]; [|lia].
    apply Nat2Z.inj in Heq. exfalso. apply Hnotin. rewrite <- Heq. apply in_map, Hin.
Qed.

Lemma fold_sub (g : nat -> Z) (l : list nat) (c : Z) :
  fold_left (fun acc v => acc - g v) l c = c - zsum (map g l).
Proof.
  revert c. induction l as [|x l IH]; intros c; cbn [fold_left map zsum fold_right]; [lia|].
  rewrite IH. fold (zsum (map g l)). lia.
Qed.

Lemma zsum_map_sub {A} (F G : A -> Z) (l : list A) :
  zsum (map F l) - zsum (map G l) = zsum (map (fun x => F x - G x) l).
Proof.
  induction l as [|x l IH]; [reflexivity|]. cbn [map zsum fold_right].
  fold (zsum (map F l)) (zsum (map G l)) (zsum (map (fun x => F x - G x) l)). lia.
Qed.

(** Under the same conditions, the objective the model minimizes,
    [sum(weight * v_start) + sum(is_present * weight * duration)
    + constant_offset], evaluated at the engine's values, is the total
    weighted turnaround time of the solution [solve] returns. *)
Theorem objective_is_weighted_turnaround (engine : CpModel -> engine_answer) config
    n mm weights arrivals latest proc windows (inst : DBAPInstance) h m :
  mk_instance n mm weights arrivals latest proc windows = inr inst ->
  solve_encode config inst = Encoded h m ->
  let ans := engine m in
  let N := Z.to_nat (num_vessels inst) in
  (status ans = OPTIMAL \/ status ans = FEASIBLE) ->
  (forall v, (v < N)%nat -> exists o, In o (vv_options (at_ (model_vessels m) v)) /\
       value_berth ans v = Z.of_nat (opt_berth o)) ->
  exists sol, solve engine config inst = inr (Some sol) /\
    total_weighted_turnaround_time sol = objective_value m (value_berth ans) (value_start ans).
Proof.
  intros Hmk Henc ans N Hst Hans.
  pose proof Hmk as Hmk0.
  apply InstanceProps.mk_instance_inv in Hmk as (Hinst & Hw & Ha & _).
  assert (Hn : num_vessels inst = n) by (rewrite Hinst; reflexivity).
  assert (HwN : length (vessel_weights inst) = N)
    by (unfold N; rewrite Hn, Hinst; unfold zlen in Hw; cbn; lia).
  assert (HaN : length (arrival_times inst) = N)
    by (unfold N; rewrite Hn, Hinst; unfold zlen in Ha; cbn; lia).
  pose proof (encoded_answer_valid config inst h m ans Henc Hans) as Hval.
  destruct (extract_ok inst ans HwN HaN Hst) as [sol [Hex Hsol]].
  { intros v Hv. destruct (Hval v Hv) as (o & _ & Hb & Hvo & _). rewrite Hb. exact Hvo. }
  exists sol. split; [unfold solve; rewrite Henc; exact Hex|].
  rewrite (mk_solution_total _ _ _ _ _ _ Hsol), List.length_map, length_seq.
  destruct (encoded_inv _ _ _ _ Henc) as (_ & _ & HF & Hoff).
  assert (Hlen : length (model_vessels m) = N)
    by (apply Forall2_length in HF; rewrite length_seq in HF; lia).
  unfold objective_value. rewrite Hlen, Hoff, fold_sub, Z.add_sub_assoc, Z.add_0_r, zsum_map_sub.
  f_equal. apply map_ext_in. intros v Hv. apply in_seq in Hv.
  rewrite at_map_seq by lia.
  destruct (encoded_vessel _ _ _ _ v Henc ltac:(lia)) as [_ Hvv].
  destruct (encode_vessel_options _ _ _ _ _ Hvv) as [Hcoef Hopts].
  destruct (Hans v ltac:(lia)) as [o [Ho Hbo]].
  destruct (Hval v ltac:(lia)) as (o' & Ho' & Hb' & Hvo' & Hc').
  rewrite Hbo in Hb' |- *. rewrite Nat2Z.id in Hb'.
  assert (Hnd : List.NoDup (map opt_berth (vv_options (at_ (model_vessels m) v)))).
  { rewrite Hopts, (proj1 (omap_berths _ _ _ _ _ _)).
    apply List.NoDup_filter, List.seq_NoDup. }
  assert (Hoo : o = o').
  { rewrite Hopts in Ho, Ho'.
    destruct (proj2 (omap_berths _ _ _ _ _ _) o Ho) as [b1 [_ Hf1]].
    destruct (proj2 (omap_berths _ _ _ _ _ _) o' Ho') as [b2 [_ Hf2]].
    pose proof (proj1 (encode_option_some _ _ _ _ _ _ _ Hf1)) as E1.
    pose proof (proj1 (encode_option_some _ _ _ _ _ _ _ Hf2)) as E2.
    subst b1 b2. rewrite Hb' in Hf1. congruence. }
  subst o'.
  rewrite (zsum_pick opt_berth opt_obj_coeff _ o Hnd Ho), Hc', Hcoef.
  rewrite Nat2Z.id. ring.
Qed.

Lemma objective_is_weighted_turnaround_witness :
  exists sol, solve (fun _ => scenario_b_answer) default_config scenario_b_instance = inr (Some sol) /\
    total_weighted_turnaround_time sol =
      objective_value scenario_b_encoded.2 (value_berth scenario_b_answer)
        (value_start scenario_b_answer) /\
    total_weighted_turnaround_time sol = 28.
Proof.
  destruct (objective_is_weighted_turnaround (fun _ => scenario_b_answer) default_config
              3 2 [1; 1; 1] [0; 5; 10] [100; 100; 100]
              [[PT 10; PT 12]; [PT 8; INVALID_PROCESSING_TIME]; [PT 6; PT 5]]
              [HOI 0 50; HOI 5 60] scenario_b_instance
              scenario_b_encoded.1 scenario_b_encoded.2
              ltac:(reflexivity) ltac:(vm_compute; reflexivity)
              ltac:(left; reflexivity) scenario_b_answer_in_options)
    as (sol & Hs & Ho).
  exists sol. split; [exact Hs|]. split; [exact Ho|].
  rewrite Ho. vm_compute. reflexivity.
Defined.

End SolveExtra.
